(** * BER-TLV codec of skythen/bertlv: shallow embedding of bertlv.go

    Go values are embedded as follows.
    - [byte] is the 256-constructor type of the Standard Library; its
      unsigned value is [byte_val], and Go's truncating conversion
      [byte(l)] of an [int] is [to_byte].
    - [int] is [Z].  Every integer the package computes is a slice length or
      a sum of a few of them, far below 2^63, so no wrap-around is written.
    - a slice [[]T] is a [list T]; a nil slice and an empty slice, which Go's
      [len], [range], [append] and slicing do not distinguish, are both [[]].
    - a function returning [(v, error)] returns a [result]: [Ok v] when the
      error is nil, [Err v e] when it is not ([v] is the value the source
      returns next to the error), [Panic] for a run-time panic (an index out
      of range), and [OutOfFuel] when the bounded unrolling of the recursion
      is too short (shown below never to happen for the entry points). *)

From Stdlib Require Import ZArith NArith List Lia Bool.
From Stdlib Require Import Strings.Byte.
Import ListNotations.

Set Warnings "-register-all".

Open Scope Z_scope.

(** ** Bytes, ints and slices *)

Definition bytes := list byte.

Definition byte_val (b : byte) : Z := Z.of_N (Byte.to_N b).

(** [byte(l)]: the low eight bits of an int. *)
Definition to_byte (l : Z) : byte :=
  match Byte.of_N (Z.to_N (l mod 256)) with
  | Some b => b
  | None => x00
  end.

(** [x & y] on bytes. *)
Definition byte_and (x y : byte) : byte :=
  to_byte (Z.land (byte_val x) (byte_val y)).

(** [len(s)]. *)
Definition len {A : Type} (s : list A) : Z := Z.of_nat (length s).

(** [s[i:]], used by the source only with [0 <= i <= len(s)]. *)
Definition slice_from {A : Type} (s : list A) (i : Z) : list A :=
  skipn (Z.to_nat i) s.

(** [s[:j]], used by the source only with [0 <= j <= len(s)]. *)
Definition slice_to {A : Type} (s : list A) (j : Z) : list A :=
  firstn (Z.to_nat j) s.

(** [s[i:j]], used by the source only with [0 <= i <= j <= len(s)]. *)
Definition slice {A : Type} (s : list A) (i j : Z) : list A :=
  firstn (Z.to_nat (j - i)) (skipn (Z.to_nat i) s).

(** ** Data model *)

Definition BerTag := bytes.

Inductive BerTLV : Type :=
  mkBerTLV { Tag : BerTag; Value : bytes; children : list BerTLV }.

Definition BerTLVs := list BerTLV.

(** [BerTLV{}]. *)
Definition zeroBerTLV : BerTLV := mkBerTLV [] [] [].

(** ** Errors

    One constructor per [errors.New]/[errors.Errorf] site and one per
    [errors.Wrap] site of the source, carrying what the message formats. *)

Inductive error : Type :=
| ErrTLVLengthZero                       (* Parse: "TLV has length 0" *)
| ErrTagFollowingMissing                 (* parseTag: second byte missing *)
| ErrTagThreeMissing                     (* parseTag: third byte missing *)
| ErrLengthMissing                       (* parseLength: "missing length" *)
| ErrLengthTwoMissing                    (* parseLength: 0x81, byte missing *)
| ErrLengthThreeMissing                  (* parseLength: 0x82, bytes missing *)
| ErrLengthFirstByte                     (* parseLength: marker not accepted *)
| ErrOutOfBounds (tag : BerTag) (indicatedEndIndex endIndex : Z)
| WrapInvalidTagAtStart (b : bytes) (cause : error)
| WrapInvalidLengthEncoding (tag : BerTag) (cause : error)
| WrapInvalidChildObject (tag : BerTag) (cause : error)
| WrapInvalidTLVAtIndex (index : Z) (cause : error)
| WrapInvalidContent (tag : BerTag) (cause : error).

Inductive result (A : Type) : Type :=
| Ok (v : A)
| Err (v : A) (e : error)
| Panic
| OutOfFuel.

Arguments Ok {A} v.
Arguments Err {A} v e.
Arguments Panic {A}.
Arguments OutOfFuel {A}.

(** ** Tag codec *)

Definition NewOneByteTag (b : byte) : BerTag := [b].
Definition NewTwoByteTag (fb sb : byte) : BerTag := [fb; sb].
Definition NewThreeByteTag (fb sb tb : byte) : BerTag := [fb; sb; tb].

(** [parseTag]: [b[0]] is read unguarded, so the empty slice panics; the
    [len(b) < 2] and [len(b) < 3] tests are the [[]] cases of the tail. *)
Definition parseTag (b : bytes) : result BerTag :=
  match b with
  | [] => Panic
  | b0 :: r0 =>
      if negb (Z.land (byte_val b0) 0x1F =? 0x1F) then Ok (NewOneByteTag b0)
      else
        match r0 with
        | [] => Err [] ErrTagFollowingMissing
        | b1 :: r1 =>
            if negb (Z.land (byte_val b1) 0x80 =? 0x80)
            then Ok (NewTwoByteTag b0 b1)
            else
              match r1 with
              | [] => Err [] ErrTagThreeMissing
              | b2 :: _ => Ok (NewThreeByteTag b0 b1 b2)
              end
        end
  end.

(** [IsConstructed]: guarded by [len(t) == 0]. *)
Definition IsConstructed (t : BerTag) : bool :=
  match t with
  | [] => false
  | t0 :: _ => negb (Z.land (byte_val t0) 0x20 =? 0)
  end.

(** ** Length codec *)

(** [binary.BigEndian.Uint16] of the Go standard library on a two-byte
    slice: [uint16(b[1]) | uint16(b[0])<<8]. *)
Definition BigEndian_Uint16 (b0 b1 : byte) : Z :=
  Z.lor (byte_val b1) (Z.shiftl (byte_val b0) 8).

(** [parseLength] returns [(length, lLen)]; [len(b)-1 <= 0] and
    [len(b)-2 <= 0] are kept as the source writes them. *)
Definition parseLength (b : bytes) : result (Z * Z) :=
  match b with
  | [] => Err (0, 0) ErrLengthMissing
  | b0 :: r0 =>
      if byte_val b0 <=? 0x7F then Ok (byte_val b0, 1)
      else if byte_val b0 =? 0x81 then
        if len b - 1 <=? 0 then Err (0, 0) ErrLengthTwoMissing
        else
          match r0 with
          | b1 :: _ => Ok (byte_val b1, 2)
          | [] => Panic
          end
      else if byte_val b0 =? 0x82 then
        if len b - 2 <=? 0 then Err (0, 0) ErrLengthThreeMissing
        else
          match r0 with
          | b1 :: b2 :: _ => Ok (BigEndian_Uint16 b1 b2, 3)
          | _ => Panic
          end
      else Err (0, 0) ErrLengthFirstByte
  end.

Definition buildLen (l : Z) : bytes :=
  if l =? 0 then [x00]
  else if l <=? 127 then [to_byte l]
  else if l <=? 255 then [x81; to_byte l]
  else [x82; byte_and (to_byte (Z.shiftr l 8)) xff; to_byte (Z.land l 0xFF)].

(** ** Recursive decoder *)

(** The loop [for index := 0; index < len(b); { ... }] that [Parse], the
    child loop of [parseFirstBerTLV] and [NewBerTLV] all run: decode one
    TLV from [b[index:]], append it, advance by [lenParsed].  [step] is the
    decoder called in the body, [wrap] the [errors.Wrap] of the call site
    (only [Parse] formats the index).  On an error the callers discard the
    accumulated slice.  [fuel] bounds the number of iterations. *)
Fixpoint parseLoop (step : bytes -> result (BerTLV * Z))
    (wrap : Z -> error -> error) (fuel : nat) (b : bytes) (index : Z)
    (acc : list BerTLV) {struct fuel} : result (list BerTLV) :=
  if index <? len b then
    match fuel with
    | O => OutOfFuel
    | S fuel' =>
        match step (slice_from b index) with
        | Ok (tlv, lenParsed) =>
            parseLoop step wrap fuel' b (index + lenParsed) (acc ++ [tlv])
        | Err _ e => Err acc (wrap index e)
        | Panic => Panic
        | OutOfFuel => OutOfFuel
        end
    end
  else Ok acc.

(** The body of [parseFirstBerTLV]; [self] stands for the recursive call
    in the child loop and [fuel] bounds that loop. *)
Definition parseFirstBerTLV_body (self : bytes -> result (BerTLV * Z))
    (fuel : nat) (b : bytes) : result (BerTLV * Z) :=
  match parseTag b with
  | Err _ e => Err (zeroBerTLV, 0) (WrapInvalidTagAtStart b e)
  | Panic => Panic
  | OutOfFuel => OutOfFuel
  | Ok tag =>
      let leftIndex := len tag in
      match parseLength (slice_from b leftIndex) with
      | Err _ e => Err (zeroBerTLV, 0) (WrapInvalidLengthEncoding tag e)
      | Panic => Panic
      | OutOfFuel => OutOfFuel
      | Ok (length, lLen) =>
          let leftIndex := leftIndex + lLen in
          let indicatedEndIndex := leftIndex + length - 1 in
          let endIndex := len b - 1 in
          if indicatedEndIndex >? endIndex then
            Err (zeroBerTLV, 0) (ErrOutOfBounds tag indicatedEndIndex endIndex)
          else
            let value := slice b leftIndex (leftIndex + length) in
            if len value =? 0 then Ok (mkBerTLV tag [] [], leftIndex)
            else
              let leftIndex := leftIndex + length in
              if IsConstructed tag then
                match
                  parseLoop self (fun _ e => WrapInvalidChildObject tag e)
                    fuel value 0 []
                with
                | Ok cs => Ok (mkBerTLV tag value cs, leftIndex)
                | Err _ e => Err (zeroBerTLV, 0) e
                | Panic => Panic
                | OutOfFuel => OutOfFuel
                end
              else Ok (mkBerTLV tag value [], leftIndex)
      end
  end.

(** [parseFirstBerTLV], unrolled [fuel] times: it recurses on the value of
    a constructed TLV, which is not a structural sub-term of [b]. *)
Fixpoint parseFirstBerTLV_fuel (fuel : nat) (b : bytes) {struct fuel}
  : result (BerTLV * Z) :=
  match fuel with
  | O => OutOfFuel
  | S fuel' => parseFirstBerTLV_body (parseFirstBerTLV_fuel fuel') fuel' b
  end.

(** One unrolling more than the input has bytes is always enough
    ([parseFirstBerTLV_fuel_irrelevant], [parseFirstBerTLV_terminates]). *)
Definition parseFirstBerTLV (b : bytes) : result (BerTLV * Z) :=
  parseFirstBerTLV_fuel (S (length b)) b.

Definition Parse (b : bytes) : result BerTLVs :=
  if len b =? 0 then Err [] ErrTLVLengthZero
  else
    match
      parseLoop parseFirstBerTLV (fun index e => WrapInvalidTLVAtIndex index e)
        (length b) b 0 []
    with
    | Ok r => Ok r
    | Err _ e => Err [] e
    | Panic => Panic
    | OutOfFuel => OutOfFuel
    end.

(** [NewBerTLV] returns a pointer, nil next to an error. *)
Definition NewBerTLV (tag : BerTag) (value : bytes) : result (option BerTLV) :=
  if negb (IsConstructed tag) then Ok (Some (mkBerTLV tag value []))
  else
    match
      parseLoop parseFirstBerTLV (fun _ e => WrapInvalidContent tag e)
        (length value) value 0 []
    with
    | Ok cs => Ok (Some (mkBerTLV tag value cs))
    | Err _ e => Err None e
    | Panic => Panic
    | OutOfFuel => OutOfFuel
    end.

(** ** Encoder *)

(** [BerTLV.Bytes]. *)
Definition BerTLV_Bytes (ber : BerTLV) : bytes :=
  let valueLen := len (Value ber) in
  let '(value, valueLen) :=
    if valueLen >? 65535 then (slice_to (Value ber) 65535, 65535)
    else (Value ber, valueLen) in
  let length := buildLen valueLen in
  let tagLen := len (Tag ber) in
  let tag :=
    if (tagLen >? 0) && (tagLen <=? 3) then Tag ber
    else if tagLen =? 0 then [x00]
    else slice_to (Tag ber) 3 in
  tag ++ length ++ value.

(** [BerTLV.BytesLength]. *)
Definition BytesLength (ber : BerTLV) : Z :=
  let lVal := len (Value ber) in
  let lVal := if lVal >? 65535 then 65535 else lVal in
  len (Tag ber) + len (buildLen lVal) + lVal.

(** [BerTLVs.Bytes]: [b = append(b, tlv.Bytes()...)] over the slice. *)
Definition BerTLVs_Bytes (t : BerTLVs) : bytes :=
  fold_left (fun b tlv => b ++ BerTLV_Bytes tlv) t [].

(** ** Builder

    The methods have value receivers and return a pointer to the modified
    copy; the copy is the returned record.  (Two builders derived from one
    share a backing array in Go; no statement below derives two.) *)

Record Builder : Type := mkBuilder { bu_bytes : bytes }.

(** [Builder{}]. *)
Definition emptyBuilder : Builder := mkBuilder [].

Definition prependLengthBytes (b : bytes) : bytes := buildLen (len b) ++ b.

Definition AddByte (bu : Builder) (tag : BerTag) (val : byte) : Builder :=
  mkBuilder (((bu_bytes bu ++ tag) ++ [x01]) ++ [val]).

Definition AddBytes (bu : Builder) (tag : BerTag) (v : bytes) : Builder :=
  let bs := bu_bytes bu ++ tag in
  if len v =? 0 then mkBuilder (bs ++ [x00])
  else
    let v := if len v >? 65535 then slice_to v 65535 else v in
    let v := prependLengthBytes v in
    mkBuilder (bs ++ v).

Definition AddEmpty (bu : Builder) (tag : BerTag) : Builder :=
  AddBytes bu tag [].

Definition AddRaw (bu : Builder) (b : bytes) : Builder :=
  mkBuilder (bu_bytes bu ++ b).

Definition BuildBerTLVs (bu : Builder) : result BerTLVs := Parse (bu_bytes bu).

Definition Builder_Bytes (bu : Builder) : bytes := bu_bytes bu.

(** ** Tag validation and class *)

(** One constructor per error site of [CheckEncoding], carrying what the
    message formats. *)
Inductive encodingError : Type :=
| ErrTagTooLong (n : Z)
| ErrOneByteIndicatesMore
| ErrFirstByteNoContinuation (n : Z)
| ErrTwoByteIndicatesMore
| ErrThreeByteSecondNoContinuation.

(** What a call of [CheckEncoding] does: return nil, return an error, or
    panic on an index out of range. *)
Inductive checked : Type :=
| CheckNil
| CheckErr (e : encodingError)
| CheckPanic.

(** [CheckEncoding]: [t[0]] is read unguarded once [l > 3] and [l == 1]
    are excluded, so the empty tag panics. *)
Definition CheckEncoding (t : BerTag) : checked :=
  let l := len t in
  if l >? 3 then CheckErr (ErrTagTooLong (len t))
  else if l =? 1 then
    match t with
    | [] => CheckPanic
    | t0 :: _ =>
        if Z.land (byte_val t0) 0x1F =? 0x1F
        then CheckErr ErrOneByteIndicatesMore
        else CheckNil
    end
  else
    match t with
    | [] => CheckPanic
    | t0 :: r0 =>
        if negb (Z.land (byte_val t0) 0x1F =? 0x1F)
        then CheckErr (ErrFirstByteNoContinuation (len t))
        else
          match r0 with
          | [] => CheckPanic
          | t1 :: _ =>
              if l =? 2 then
                if Z.land (byte_val t1) 0x80 =? 0x80
                then CheckErr ErrTwoByteIndicatesMore
                else CheckNil
              else
                if negb (Z.land (byte_val t1) 0x80 =? 0x80)
                then CheckErr ErrThreeByteSecondNoContinuation
                else CheckNil
          end
    end.

Inductive Class : Type :=
| Universal
| Application
| ContextSpecific
| Private.

(** [BerTag.Class]: a switch on [t[0] & 0xC0]; [t[0]] is read unguarded. *)
Definition BerTag_Class (t : BerTag) : result Class :=
  match t with
  | [] => Panic
  | t0 :: _ =>
      let v := Z.land (byte_val t0) 0xC0 in
      if v =? 0x40 then Ok Application
      else if v =? 0x80 then Ok ContextSpecific
      else if v =? 0xC0 then Ok Private
      else Ok Universal
  end.

(** ** Navigation *)

(** [bytes.Equal] of the Go standard library: same length and same bytes
    (a nil and an empty slice are equal). *)
Fixpoint bytes_Equal (a b : bytes) : bool :=
  match a, b with
  | [], [] => true
  | x :: a', y :: b' => Byte.eqb x y && bytes_Equal a' b'
  | _, _ => false
  end.

(** [for _, tlv := range l { if bytes.Equal(tlv.Tag, tag) { out =
    append(out, tlv) } }], the loop of [FindAllWithTag] and [Children]. *)
Definition appendMatching (l : list BerTLV) (tag : BerTag) : list BerTLV :=
  fold_left
    (fun out tlv => if bytes_Equal (Tag tlv) tag then out ++ [tlv] else out)
    l [].

(** [for _, tlv := range l { if bytes.Equal(tlv.Tag, tag) { return &tlv } };
    return nil], the loop of [FindFirstWithTag] and [FirstChild]; the
    pointer to the loop copy is the optional node. *)
Fixpoint firstMatching (l : list BerTLV) (tag : BerTag) : option BerTLV :=
  match l with
  | [] => None
  | tlv :: r =>
      if bytes_Equal (Tag tlv) tag then Some tlv else firstMatching r tag
  end.

Definition FindAllWithTag (t : BerTLVs) (tag : BerTag) : list BerTLV :=
  let berTLVs := appendMatching t tag in
  if len berTLVs =? 0 then [] else berTLVs.

Definition FindFirstWithTag (t : BerTLVs) (tag : BerTag) : option BerTLV :=
  firstMatching t tag.

Definition Children (ber : BerTLV) (tag : BerTag) : list BerTLV :=
  if len tag =? 0 then children ber
  else if negb (IsConstructed (Tag ber)) then []
  else appendMatching (children ber) tag.

Definition FirstChild (ber : BerTLV) (tag : BerTag) : option BerTLV :=
  if (len tag =? 0) && negb (len (children ber) =? 0) then
    match children ber with
    | c :: _ => Some c
    | [] => None
    end
  else if negb (IsConstructed (Tag ber)) then None
  else firstMatching (children ber) tag.

(** ** Properties used in the statements *)

(** The tag bytes [BerTLV.Bytes] emits, by cases on the stored tag; shown
    in [BerTLV_Bytes_eq] to be what the encoder's tests on [tagLen] select. *)
Definition emittedTag (tag : BerTag) : bytes :=
  match tag with [] => [x00] | _ => slice_to tag 3 end.



(** A node decodes again from its own encoding, followed by anything. *)
Definition reparses (t : BerTLV) : Prop :=
  forall rest,
    parseFirstBerTLV (BerTLV_Bytes t ++ rest)
    = Ok (t, len (BerTLV_Bytes t)).

(** A node as the decoder builds it, at every depth: a tag that passes
    [CheckEncoding], a value of at most 65535 bytes, no children under a
    primitive tag or an empty value, and under a constructed tag with a
    non-empty value the children [Parse] returns on that value. *)
Fixpoint wellFormed (t : BerTLV) : Prop :=
  match t with
  | mkBerTLV tag value cs =>
      CheckEncoding tag = CheckNil /\
      len value <= 65535 /\
      (IsConstructed tag = false -> cs = []) /\
      (value = [] -> cs = []) /\
      (IsConstructed tag = true -> value <> [] -> Parse value = Ok cs) /\
      (fix all (l : list BerTLV) : Prop :=
         match l with
         | [] => True
         | c :: l' => wellFormed c /\ all l'
         end) cs
  end.

(** [decodes s ts]: decoding one TLV after the other from [s], each where
    the one before stopped, yields the nodes [ts] and exhausts [s]; this is
    what the loop of [Parse] computes, without its index and bound. *)
Inductive decodes : bytes -> list BerTLV -> Prop :=
| decodes_nil : decodes [] []
| decodes_cons (s : bytes) (t : BerTLV) (n : Z) (ts : list BerTLV) :
    parseFirstBerTLV s = Ok (t, n) ->
    decodes (slice_from s n) ts ->
    decodes s (t :: ts).

(** ** Concrete runs *)

Example parse_nested_example :
  Parse [x71; x10; xb0; x0e; x0f; x05; x01; x02; x03; x04; x05;
         x0e; x05; x05; x04; x03; x02; x01]
  = Ok [mkBerTLV [x71]
          [xb0; x0e; x0f; x05; x01; x02; x03; x04; x05;
           x0e; x05; x05; x04; x03; x02; x01]
          [mkBerTLV [xb0]
             [x0f; x05; x01; x02; x03; x04; x05;
              x0e; x05; x05; x04; x03; x02; x01]
             [mkBerTLV [x0f] [x01; x02; x03; x04; x05] [];
              mkBerTLV [x0e] [x05; x04; x03; x02; x01] []]]].
Proof. vm_compute. reflexivity. Qed.

Example parse_tag_continuation_missing :
  Parse [x1f]
  = Err [] (WrapInvalidTLVAtIndex 0
              (WrapInvalidTagAtStart [x1f] ErrTagFollowingMissing)).
Proof. reflexivity. Qed.

(** ** Bytes and their values *)

Lemma byte_val_range (b : byte) : 0 <= byte_val b <= 255.
Proof.
  unfold byte_val. pose proof (Byte.to_N_bounded b). lia.
Qed.

Lemma byte_val_to_byte (l : Z) : byte_val (to_byte l) = l mod 256.
Proof.
  unfold byte_val, to_byte.
  pose proof (Z.mod_pos_bound l 256 ltac:(lia)) as Hm.
  destruct (Byte.of_N (Z.to_N (l mod 256))) as [y|] eqn:E.
  - apply Byte.to_of_N in E. rewrite E. lia.
  - apply Byte.of_N_None_iff in E. lia.
Qed.

Lemma byte_val_inj (x y : byte) : byte_val x = byte_val y -> x = y.
Proof.
  unfold byte_val. intros H. apply N2Z.inj in H.
  assert (Some x = Some y) as E.
  { rewrite <- (Byte.of_to_N x), <- (Byte.of_to_N y), H. reflexivity. }
  congruence.
Qed.

Lemma to_byte_byte_val (b : byte) : to_byte (byte_val b) = b.
Proof.
  apply byte_val_inj. rewrite byte_val_to_byte.
  pose proof (byte_val_range b). apply Z.mod_small. lia.
Qed.

Lemma byte_and_xff (x : byte) : byte_and x xff = x.
Proof.
  unfold byte_and. change (byte_val xff) with (Z.ones 8).
  rewrite Z.land_ones by lia. change (2 ^ 8) with 256.
  rewrite <- byte_val_to_byte, !to_byte_byte_val. reflexivity.
Qed.

Lemma land_byte_shifted (lo hi : Z) :
  0 <= lo < 256 -> Z.land lo (hi * 256) = 0.
Proof.
  intros Hlo. apply Z.bits_inj'. intros n Hn.
  rewrite Z.land_spec, Z.bits_0.
  destruct (Z.lt_ge_cases n 8).
  - change 256 with (2 ^ 8). rewrite Z.mul_pow2_bits_low by lia.
    apply andb_false_r.
  - destruct (Z.eq_dec lo 0) as [->|Hnz]; [rewrite Z.bits_0; reflexivity|].
    rewrite (Z.bits_above_log2 lo n); [reflexivity|lia|].
    apply Z.lt_le_trans with 8; [|lia].
    apply Z.log2_lt_pow2; lia.
Qed.

Lemma BigEndian_Uint16_value (b0 b1 : byte) :
  BigEndian_Uint16 b0 b1 = byte_val b0 * 256 + byte_val b1.
Proof.
  unfold BigEndian_Uint16.
  pose proof (byte_val_range b1) as H1.
  rewrite Z.shiftl_mul_pow2 by lia. change (2 ^ 8) with 256.
  rewrite <- Z.lxor_lor, <- Z.add_nocarry_lxor
    by (apply land_byte_shifted; lia).
  lia.
Qed.

(** ** Length codec: [buildLen] and [parseLength] *)

Lemma buildLen_values (n : Z) :
  0 <= n <= 65535 ->
  map byte_val (buildLen n) =
    if n <=? 127 then [n]
    else if n <=? 255 then [0x81; n]
    else [0x82; n / 256; n mod 256].
Proof.
  intros Hn. unfold buildLen.
  destruct (Z.eqb_spec n 0) as [->|Hz]; [reflexivity|].
  destruct (Z.leb_spec n 127).
  - cbn [map]. rewrite byte_val_to_byte, Z.mod_small by lia. reflexivity.
  - destruct (Z.leb_spec n 255).
    + cbn [map]. rewrite byte_val_to_byte, Z.mod_small by lia. reflexivity.
    + cbn [map]. rewrite byte_and_xff, !byte_val_to_byte.
      rewrite Z.shiftr_div_pow2 by lia. change (2 ^ 8) with 256.
      change 255 with (Z.ones 8). rewrite Z.land_ones by lia.
      change (2 ^ 8) with 256. rewrite Z.mod_mod by lia.
      assert (0 <= n / 256 < 256)
        by (split; [apply Z.div_pos; lia | apply Z.div_lt_upper_bound; lia]).
      rewrite (Z.mod_small (n / 256)) by lia. reflexivity.
Qed.

(** C3: [buildLen] maps 0 to [0x00], 1..127 to the single byte n,
    128..255 to [0x81, n], and 256..65535 to [0x82, high, low] in
    big-endian order; the boundary lengths 127, 128, 255, 256 and 65535
    encode as 7F, 81 80, 81 FF, 82 01 00 and 82 FF FF. *)
Theorem buildLen_exact (n : Z) :
  (n = 0 -> buildLen n = [x00]) /\
  (1 <= n <= 127 -> map byte_val (buildLen n) = [n]) /\
  (128 <= n <= 255 -> map byte_val (buildLen n) = [0x81; n]) /\
  (256 <= n <= 65535 ->
     map byte_val (buildLen n) = [0x82; n / 256; n mod 256]) /\
  buildLen 127 = [x7f] /\
  buildLen 128 = [x81; x80] /\
  buildLen 255 = [x81; xff] /\
  buildLen 256 = [x82; x01; x00] /\
  buildLen 65535 = [x82; xff; xff].
Proof.
  split; [intros ->; reflexivity|].
  split.
  { intros H. rewrite buildLen_values by lia.
    destruct (Z.leb_spec n 127); [reflexivity|lia]. }
  split.
  { intros H. rewrite buildLen_values by lia.
    destruct (Z.leb_spec n 127); [lia|].
    destruct (Z.leb_spec n 255); [reflexivity|lia]. }
  split.
  { intros H. rewrite buildLen_values by lia.
    destruct (Z.leb_spec n 127); [lia|].
    destruct (Z.leb_spec n 255); [lia|reflexivity]. }
  repeat split; reflexivity.
Qed.

Lemma buildLen_exact_witness :
  buildLen 0 = [x00] /\
  map byte_val (buildLen 100) = [100] /\
  map byte_val (buildLen 200) = [0x81; 200] /\
  map byte_val (buildLen 1000) = [0x82; 1000 / 256; 1000 mod 256].
Proof.
  split; [apply (proj1 (buildLen_exact 0)); reflexivity|].
  split; [apply (proj1 (proj2 (buildLen_exact 100))); lia|].
  split; [apply (proj1 (proj2 (proj2 (buildLen_exact 200)))); lia|].
  apply (proj1 (proj2 (proj2 (proj2 (buildLen_exact 1000))))); lia.
Defined.

Lemma len_buildLen (n : Z) :
  len (buildLen n) =
    if n <=? 127 then 1 else if n <=? 255 then 2 else 3.
Proof.
  unfold buildLen.
  destruct (Z.eqb_spec n 0) as [->|]; [reflexivity|].
  destruct (n <=? 127); [reflexivity|].
  destruct (n <=? 255); reflexivity.
Qed.

(** Decoding an encoded length gives the length back. *)
Lemma parseLength_buildLen (n : Z) (rest : bytes) :
  0 <= n <= 65535 ->
  parseLength (buildLen n ++ rest) = Ok (n, len (buildLen n)).
Proof.
  intros Hn. rewrite len_buildLen.
  pose proof (buildLen_values n Hn) as Hv.
  destruct (Z.leb_spec n 127).
  - destruct (buildLen n) as [|b0 [|? ?]]; try discriminate.
    injection Hv as Hv. cbn [app parseLength]. rewrite Hv.
    destruct (Z.leb_spec n 127); [reflexivity|lia].
  - destruct (Z.leb_spec n 255).
    + destruct (buildLen n) as [|b0 [|b1 [|? ?]]]; try discriminate.
      injection Hv as E0 E1. cbn [app parseLength]. rewrite E0, E1.
      cbn [Z.leb Z.compare Pos.compare Pos.compare_cont Z.eqb Pos.eqb].
      unfold len. cbn [length].
      destruct (Z.leb_spec (Z.of_nat (S (S (length rest))) - 1) 0);
        [lia|reflexivity].
    + destruct (buildLen n) as [|b0 [|b1 [|b2 [|? ?]]]]; try discriminate.
      injection Hv as E0 E1 E2. cbn [app parseLength]. rewrite E0.
      cbn [Z.leb Z.compare Pos.compare Pos.compare_cont Z.eqb Pos.eqb].
      unfold len. cbn [length].
      destruct (Z.leb_spec (Z.of_nat (S (S (S (length rest)))) - 2) 0);
        [lia|].
      rewrite BigEndian_Uint16_value, E1, E2.
      f_equal. f_equal. pose proof (Z.div_mod n 256). lia.
Qed.

(** The four outcomes of [parseLength] on a non-empty slice, by marker. *)
Lemma parseLength_cons (b0 : byte) (r : bytes) :
  parseLength (b0 :: r) =
    if byte_val b0 <=? 0x7F then Ok (byte_val b0, 1)
    else if byte_val b0 =? 0x81 then
      match r with
      | [] => Err (0, 0) ErrLengthTwoMissing
      | b1 :: _ => Ok (byte_val b1, 2)
      end
    else if byte_val b0 =? 0x82 then
      match r with
      | b1 :: b2 :: _ => Ok (byte_val b1 * 256 + byte_val b2, 3)
      | _ => Err (0, 0) ErrLengthThreeMissing
      end
    else Err (0, 0) ErrLengthFirstByte.
Proof.
  unfold parseLength, len.
  destruct (byte_val b0 <=? 0x7F); [reflexivity|].
  destruct (byte_val b0 =? 0x81).
  { destruct r as [|b1 r]; cbn [length].
    - reflexivity.
    - destruct (Z.leb_spec (Z.of_nat (S (S (length r))) - 1) 0);
        [lia|reflexivity]. }
  destruct (byte_val b0 =? 0x82); [|reflexivity].
  destruct r as [|b1 [|b2 r]]; cbn [length]; try reflexivity.
  destruct (Z.leb_spec (Z.of_nat (S (S (S (length r)))) - 2) 0); [lia|].
  rewrite BigEndian_Uint16_value. reflexivity.
Qed.

(** C4: [parseLength] fails exactly on the empty input, on marker 0x81
    with no following byte, on marker 0x82 with fewer than two following
    bytes, and on marker 0x80 or a marker above 0x82; on every other input
    it returns the decoded length and the number of length bytes (1, 2 or
    3), and it never panics. *)
Theorem parseLength_accepts_exactly (b : bytes) :
  ((exists v e, parseLength b = Err v e) <->
     (b = [] \/
      exists b0 r, b = b0 :: r /\
        ((byte_val b0 = 0x81 /\ r = []) \/
         (byte_val b0 = 0x82 /\ len r < 2) \/
         byte_val b0 = 0x80 \/
         byte_val b0 > 0x82))) /\
  (forall v n, parseLength b = Ok (v, n) <->
     exists b0 r, b = b0 :: r /\
       ((byte_val b0 <= 0x7F /\ v = byte_val b0 /\ n = 1) \/
        (byte_val b0 = 0x81 /\
           exists b1 r', r = b1 :: r' /\ v = byte_val b1 /\ n = 2) \/
        (byte_val b0 = 0x82 /\
           exists b1 b2 r', r = b1 :: b2 :: r' /\
             v = byte_val b1 * 256 + byte_val b2 /\ n = 3))) /\
  ((exists v e, parseLength b = Err v e) \/
   (exists v n, parseLength b = Ok (v, n) /\ (n = 1 \/ n = 2 \/ n = 3))).
Proof.
  destruct b as [|b0 r].
  { split; [|split].
    - split; [intros _; left; reflexivity|intros _; cbn; eauto].
    - intros v n. split; [discriminate|].
      intros (c0 & r & H & _). discriminate.
    - left. cbn. eauto. }
  rewrite parseLength_cons.
  pose proof (byte_val_range b0) as Hr.
  destruct (Z.leb_spec (byte_val b0) 0x7F) as [Hs|Hs].
  { split; [|split].
    - split.
      + intros (v & e & H). discriminate.
      + intros [H|(c0 & r' & H & Hc)]; [discriminate|].
        injection H as <- <-. lia.
    - intros v n. split.
      + intros H. injection H as <- <-. exists b0, r. split; [reflexivity|].
        left. lia.
      + intros (c0 & r' & H & Hc). injection H as <- <-.
        destruct Hc as [(_ & -> & ->)|[(Hc & _)|(Hc & _)]];
          [reflexivity|lia|lia].
    - right. eauto. }
  destruct (Z.eqb_spec (byte_val b0) 0x81) as [H81|H81].
  { destruct r as [|b1 r].
    - split; [|split].
      + split; [|eauto].
        intros _. right. exists b0, []. split; [reflexivity|]. left. auto.
      + intros v n. split; [discriminate|].
        intros (c0 & r' & H & Hc). injection H as <- <-.
        destruct Hc as [(Hc & _)|[(_ & c1 & r'' & Hc & _)|(Hc & _)]];
          [lia|discriminate|lia].
      + left. eauto.
    - split; [|split].
      + split; [intros (v & e & H); discriminate|].
        intros [H|(c0 & r' & H & Hc)]; [discriminate|].
        injection H as <- <-.
        destruct Hc as [(_ & Hc)|[(Hc & _)|[Hc|Hc]]];
          [discriminate|lia|lia|lia].
      + intros v n. split.
        * intros H. injection H as <- <-. exists b0, (b1 :: r).
          split; [reflexivity|]. right. left. split; [assumption|].
          exists b1, r. auto.
        * intros (c0 & r' & H & Hc). injection H as <- <-.
          destruct Hc as [(Hc & _)|[(_ & c1 & r'' & Hc & -> & ->)|(Hc & _)]];
            [lia| |lia].
          injection Hc as <- <-. reflexivity.
      + right. eauto 6. }
  destruct (Z.eqb_spec (byte_val b0) 0x82) as [H82|H82].
  { destruct r as [|b1 [|b2 r]].
    - split; [|split].
      + split; [|eauto].
        intros _. right. exists b0, []. split; [reflexivity|].
        right. left. split; [assumption|]. unfold len. cbn. lia.
      + intros v n. split; [discriminate|].
        intros (c0 & r' & H & Hc). injection H as <- <-.
        destruct Hc as
          [(Hc & _)|[(Hc & _)|(_ & c1 & c2 & r'' & Hc & _)]];
          [lia|lia|discriminate].
      + left. eauto.
    - split; [|split].
      + split; [|eauto].
        intros _. right. exists b0, [b1]. split; [reflexivity|].
        right. left. split; [assumption|]. unfold len. cbn. lia.
      + intros v n. split; [discriminate|].
        intros (c0 & r' & H & Hc). injection H as <- <-.
        destruct Hc as
          [(Hc & _)|[(Hc & _)|(_ & c1 & c2 & r'' & Hc & _)]];
          [lia|lia|discriminate].
      + left. eauto.
    - split; [|split].
      + split; [intros (v & e & H); discriminate|].
        intros [H|(c0 & r' & H & Hc)]; [discriminate|].
        injection H as <- <-.
        destruct Hc as [(Hc & _)|[(_ & Hc)|[Hc|Hc]]]; [lia| |lia|lia].
        unfold len in Hc. cbn [length] in Hc. lia.
      + intros v n. split.
        * intros H. injection H as <- <-. exists b0, (b1 :: b2 :: r).
          split; [reflexivity|]. right. right. split; [assumption|].
          exists b1, b2, r. auto.
        * intros (c0 & r' & H & Hc). injection H as <- <-.
          destruct Hc as
            [(Hc & _)|[(Hc & _)|(_ & c1 & c2 & r'' & Hc & -> & ->)]];
            [lia|lia|].
          injection Hc as <- <- <-. reflexivity.
      + right. eauto 6. }
  split; [|split].
  - split; [|eauto].
    intros _. right. exists b0, r. split; [reflexivity|].
    right. right. lia.
  - intros v n. split; [discriminate|].
    intros (c0 & r' & H & Hc). injection H as <- <-.
    destruct Hc as [(Hc & _)|[(Hc & _)|(Hc & _)]]; lia.
  - left. eauto.
Qed.

Lemma parseLength_accepts_exactly_witness :
  (exists v e, parseLength [x81] = Err v e) /\
  parseLength [x82; x01; x02] = Ok (258, 3).
Proof.
  split.
  - apply (proj1 (parseLength_accepts_exactly [x81])).
    right. exists x81, []. split; [reflexivity|]. left. split; reflexivity.
  - apply (proj1 (proj2 (parseLength_accepts_exactly [x82; x01; x02]))).
    exists x82, [x01; x02]. split; [reflexivity|].
    right. right. split; [reflexivity|].
    exists x01, x02, []. repeat split; reflexivity.
Defined.

(** ** Slices *)

Lemma len_nonneg {A : Type} (s : list A) : 0 <= len s.
Proof. unfold len. lia. Qed.

Lemma len_app {A : Type} (s t : list A) : len (s ++ t) = len s + len t.
Proof. unfold len. rewrite length_app. lia. Qed.

Lemma len_zero_nil {A : Type} (s : list A) : len s = 0 -> s = [].
Proof. destruct s; [reflexivity|]. unfold len. cbn. lia. Qed.

Lemma slice_to_all {A : Type} (s : list A) (j : Z) :
  len s <= j -> slice_to s j = s.
Proof.
  unfold slice_to, len. intros H. apply firstn_all2. lia.
Qed.

Lemma len_slice_to {A : Type} (s : list A) (j : Z) :
  0 <= j <= len s -> len (slice_to s j) = j.
Proof.
  unfold slice_to, len. intros H. rewrite length_firstn. lia.
Qed.

Lemma slice_from_app {A : Type} (s t : list A) :
  slice_from (s ++ t) (len s) = t.
Proof.
  unfold slice_from, len. rewrite Nat2Z.id, skipn_app, skipn_all, Nat.sub_diag.
  reflexivity.
Qed.

Lemma slice_app_prefix {A : Type} (p s t : list A) (i j : Z) :
  i = len p -> j = len p + len s -> slice ((p ++ s) ++ t) i j = s.
Proof.
  intros -> ->. unfold slice. fold (slice_from ((p ++ s) ++ t) (len p)).
  rewrite <- app_assoc, slice_from_app.
  replace (len p + len s - len p) with (len s) by lia.
  unfold len. rewrite Nat2Z.id, firstn_app, Nat.sub_diag, firstn_all.
  cbn. apply app_nil_r.
Qed.

(** ** Encoder *)

Lemma emittedTag_regular (tag : BerTag) :
  1 <= len tag <= 3 -> emittedTag tag = tag.
Proof.
  intros H. destruct tag as [|t0 r].
  - unfold len in H. cbn in H. lia.
  - apply (slice_to_all (t0 :: r) 3). lia.
Qed.

Lemma BerTLV_Bytes_eq (ber : BerTLV) :
  BerTLV_Bytes ber
  = emittedTag (Tag ber)
      ++ buildLen (len (slice_to (Value ber) 65535))
      ++ slice_to (Value ber) 65535.
Proof.
  unfold BerTLV_Bytes.
  assert (Hv : (if len (Value ber) >? 65535
                then (slice_to (Value ber) 65535, 65535)
                else (Value ber, len (Value ber)))
               = (slice_to (Value ber) 65535,
                  len (slice_to (Value ber) 65535))).
  { destruct (Z.gtb_spec (len (Value ber)) 65535).
    - rewrite len_slice_to by lia. reflexivity.
    - rewrite slice_to_all by lia. reflexivity. }
  rewrite Hv. f_equal.
  destruct (Z.gtb_spec (len (Tag ber)) 0) as [Hp|Hp]; cbn [andb].
  - destruct (Z.leb_spec (len (Tag ber)) 3).
    + symmetry. apply emittedTag_regular. lia.
    + destruct (Z.eqb_spec (len (Tag ber)) 0); [lia|].
      destruct (Tag ber); [|reflexivity].
      unfold len in Hp. cbn in Hp. lia.
  - pose proof (len_nonneg (Tag ber)).
    destruct (Z.eqb_spec (len (Tag ber)) 0) as [Hz|Hz]; [|lia].
    rewrite (len_zero_nil _ Hz). reflexivity.
Qed.

(** C5: [Bytes] never fails and emits the tag bytes, then [buildLen] of
    the length of the emitted value, then the emitted value; the emitted
    value is the value cut to its first 65535 bytes (with length bytes
    82 FF FF when it was longer), the emitted tag is one zero byte for an
    empty tag and the tag cut to its first 3 bytes otherwise. *)
Theorem Bytes_truncation_policy (ber : BerTLV) :
  let tagOut :=
    match Tag ber with [] => [x00] | _ => slice_to (Tag ber) 3 end in
  let valueOut := slice_to (Value ber) 65535 in
  BerTLV_Bytes ber = tagOut ++ buildLen (len valueOut) ++ valueOut /\
  (len (Value ber) <= 65535 -> valueOut = Value ber) /\
  (len (Value ber) > 65535 ->
     len valueOut = 65535 /\ buildLen (len valueOut) = [x82; xff; xff]) /\
  (1 <= len (Tag ber) <= 3 -> tagOut = Tag ber) /\
  (len (Tag ber) > 3 -> len tagOut = 3).
Proof.
  intros tagOut valueOut.
  split; [apply BerTLV_Bytes_eq|].
  split; [intros H; apply (slice_to_all (Value ber) 65535 H)|].
  split.
  { intros H.
    assert (Hbig : len valueOut = 65535)
      by (apply (len_slice_to (Value ber) 65535); lia).
    split; [exact Hbig|]. rewrite Hbig. reflexivity. }
  split; [apply emittedTag_regular|].
  intros H. subst tagOut. destruct (Tag ber) as [|t0 r] eqn:E.
  - unfold len in H. cbn in H. lia.
  - apply (len_slice_to (t0 :: r) 3). lia.
Qed.

Lemma Bytes_truncation_policy_witness :
  BerTLV_Bytes (mkBerTLV [x01; x02; x03] [xaa] []) =
    [x01; x02; x03; x01; xaa] /\
  len (slice_to [x01; x02; x03; x04] 3) = 3 /\
  buildLen (len (slice_to (repeat x00 (Z.to_nat 65536)) 65535)) =
    [x82; xff; xff].
Proof.
  split; [|split].
  - pose proof (Bytes_truncation_policy (mkBerTLV [x01; x02; x03] [xaa] []))
      as (H & Hs & _ & Ht & _).
    cbn [Tag Value] in H, Hs, Ht.
    rewrite H, Hs, Ht; [reflexivity| |]; unfold len; cbn; lia.
  - apply (Bytes_truncation_policy (mkBerTLV [x01; x02; x03; x04] [] [])).
    unfold len. cbn. lia.
  - apply (Bytes_truncation_policy
             (mkBerTLV [] (repeat x00 (Z.to_nat 65536)) [])).
    cbn [Value]. unfold len. rewrite repeat_length. lia.
Defined.

(** C9: [Bytes] does not read [children]: two nodes with the same tag and
    the same value encode to the same bytes, whatever their children are. *)
Theorem Bytes_ignores_children (ber ber' : BerTLV) :
  Tag ber = Tag ber' ->
  Value ber = Value ber' ->
  BerTLV_Bytes ber = BerTLV_Bytes ber'.
Proof.
  destruct ber as [tag value cs], ber' as [tag' value' cs'].
  cbn [Tag Value]. intros <- <-. reflexivity.
Qed.

Lemma Bytes_ignores_children_witness :
  BerTLV_Bytes (mkBerTLV [x71] [x0a; x01; xff] [mkBerTLV [x0a] [xff] []])
  = BerTLV_Bytes
      (mkBerTLV [x71] [x0a; x01; xff] [mkBerTLV [x0e] [] []; zeroBerTLV]).
Proof.
  apply Bytes_ignores_children; reflexivity.
Defined.

(** [BytesLength] agrees with [Bytes] whenever the tag has 1 to 3 bytes. *)
Lemma BytesLength_matches_on_regular_tags (ber : BerTLV) :
  1 <= len (Tag ber) <= 3 -> BytesLength ber = len (BerTLV_Bytes ber).
Proof.
  intros Ht.
  rewrite BerTLV_Bytes_eq, emittedTag_regular by assumption.
  rewrite !len_app. unfold BytesLength.
  destruct (Z.gtb_spec (len (Value ber)) 65535) as [Hv|Hv].
  - rewrite len_slice_to by lia. lia.
  - rewrite slice_to_all by lia. lia.
Qed.

(** C2 fails on the code: [BytesLength] adds [len(ber.Tag)] as it is,
    while [Bytes] emits one zero byte for an empty tag and three bytes for
    a longer tag. *)
Theorem BytesLength_misses_tag_rules :
  BytesLength (mkBerTLV [] [] []) = 1 /\
  len (BerTLV_Bytes (mkBerTLV [] [] [])) = 2 /\
  BytesLength (mkBerTLV [x01; x02; x03; x04] [xaa] []) = 6 /\
  len (BerTLV_Bytes (mkBerTLV [x01; x02; x03; x04] [xaa] [])) = 5.
Proof. repeat split; reflexivity. Qed.

(** ** Decoder: inversion lemmas *)

Lemma parseTag_ok (b : bytes) (tag : BerTag) :
  parseTag b = Ok tag ->
  (exists rest, b = tag ++ rest) /\
  1 <= len tag <= 3 /\
  (forall rest, parseTag (tag ++ rest) = Ok tag).
Proof.
  unfold parseTag, NewOneByteTag, NewTwoByteTag, NewThreeByteTag.
  destruct b as [|b0 r0]; [discriminate|].
  destruct (negb (Z.land (byte_val b0) 0x1F =? 0x1F)) eqn:E0.
  { intros H. injection H as <-. split; [exists r0; reflexivity|].
    split; [unfold len; cbn; lia|]. intros rest. cbn. rewrite E0.
    reflexivity. }
  destruct r0 as [|b1 r1]; [discriminate|].
  destruct (negb (Z.land (byte_val b1) 0x80 =? 0x80)) eqn:E1.
  { intros H. injection H as <-. split; [exists r1; reflexivity|].
    split; [unfold len; cbn; lia|]. intros rest. cbn. rewrite E0, E1.
    reflexivity. }
  destruct r1 as [|b2 r2]; [discriminate|].
  intros H. injection H as <-. split; [exists r2; reflexivity|].
  split; [unfold len; cbn; lia|]. intros rest. cbn. rewrite E0, E1.
  reflexivity.
Qed.

Lemma parseTag_no_panic (b : bytes) : b <> [] -> parseTag b <> Panic.
Proof.
  unfold parseTag. destruct b as [|b0 [|b1 [|b2 r]]]; [congruence| | |];
    intros _;
    repeat match goal with
           | |- context [if ?c then _ else _] => destruct c
           end; discriminate.
Qed.

Lemma parseTag_no_OutOfFuel (b : bytes) : parseTag b <> OutOfFuel.
Proof.
  unfold parseTag. destruct b as [|b0 [|b1 [|b2 r]]];
    repeat match goal with
           | |- context [if ?c then _ else _] => destruct c
           end; discriminate.
Qed.

Lemma parseLength_ok_bounds (s : bytes) (v n : Z) :
  parseLength s = Ok (v, n) ->
  1 <= n <= 3 /\ n <= len s /\ 0 <= v <= 65535.
Proof.
  destruct s as [|b0 r]; [discriminate|]. rewrite parseLength_cons.
  unfold len. pose proof (byte_val_range b0).
  destruct (byte_val b0 <=? 0x7F).
  { intros E. injection E as <- <-. cbn [length]. lia. }
  destruct (byte_val b0 =? 0x81).
  { destruct r as [|b1 r]; [discriminate|]. intros E. injection E as <- <-.
    pose proof (byte_val_range b1). cbn [length]. lia. }
  destruct (byte_val b0 =? 0x82); [|discriminate].
  destruct r as [|b1 [|b2 r]]; try discriminate.
  intros E. injection E as <- <-.
  pose proof (byte_val_range b1). pose proof (byte_val_range b2).
  cbn [length]. lia.
Qed.

Lemma parseLength_returns (s : bytes) :
  parseLength s <> Panic /\ parseLength s <> OutOfFuel.
Proof.
  destruct s as [|b0 r]; [split; discriminate|]. rewrite parseLength_cons.
  destruct (byte_val b0 <=? 0x7F); [split; discriminate|].
  destruct (byte_val b0 =? 0x81).
  { destruct r; split; discriminate. }
  destruct (byte_val b0 =? 0x82); [|split; discriminate].
  destruct r as [|b1 [|b2 r]]; split; discriminate.
Qed.

Lemma len_slice {A : Type} (s : list A) (i j : Z) :
  0 <= i -> i <= j -> j <= len s -> len (slice s i j) = j - i.
Proof.
  unfold slice, len. intros Hi Hij Hj.
  rewrite length_firstn, length_skipn. lia.
Qed.

Lemma length_slice_le {A : Type} (s : list A) (i j : Z) :
  (length (slice s i j) <= length s - Z.to_nat i)%nat.
Proof.
  unfold slice. rewrite length_firstn, length_skipn. lia.
Qed.

(** What a successful run of the body has established. *)
Lemma parseFirstBerTLV_body_ok self fuel (b : bytes) (t : BerTLV) (n : Z) :
  parseFirstBerTLV_body self fuel b = Ok (t, n) ->
  exists tag length lLen,
    parseTag b = Ok tag /\
    parseLength (slice_from b (len tag)) = Ok (length, lLen) /\
    len tag + lLen + length <= len b /\
    ((length = 0 /\ t = mkBerTLV tag [] [] /\ n = len tag + lLen) \/
     (length <> 0 /\ n = len tag + lLen + length /\
      exists cs,
        t = mkBerTLV tag
              (slice b (len tag + lLen) (len tag + lLen + length)) cs /\
        ((IsConstructed tag = false /\ cs = []) \/
         (IsConstructed tag = true /\
          parseLoop self (fun _ e => WrapInvalidChildObject tag e) fuel
            (slice b (len tag + lLen) (len tag + lLen + length)) 0 []
          = Ok cs)))).
Proof.
  unfold parseFirstBerTLV_body.
  destruct (parseTag b) as [tag| | |] eqn:Etag; try discriminate.
  destruct (parseLength (slice_from b (len tag))) as [[length lLen]| | |]
    eqn:Elen; try discriminate.
  destruct (parseTag_ok _ _ Etag) as (_ & Htl & _).
  destruct (parseLength_ok_bounds _ _ _ Elen) as (Hl & _ & Hv).
  destruct (Z.gtb_spec (len tag + lLen + length - 1) (len b - 1)) as [|Hb];
    [discriminate|].
  assert (Hlen : len (slice b (len tag + lLen) (len tag + lLen + length))
                 = length).
  { rewrite len_slice; lia. }
  rewrite Hlen.
  destruct (Z.eqb_spec length 0) as [Hz|Hz].
  { intros E. injection E as <- <-. exists tag, length, lLen.
    repeat split; try assumption; try lia. left. auto. }
  destruct (IsConstructed tag) eqn:Ec.
  - destruct (parseLoop self _ fuel _ 0 []) as [cs| | |] eqn:Eloop;
      try discriminate.
    intros E. injection E as <- <-. exists tag, length, lLen.
    repeat split; try assumption; try lia. right.
    repeat split; try assumption. exists cs. split; [reflexivity|].
    right. auto.
  - intros E. injection E as <- <-. exists tag, length, lLen.
    repeat split; try assumption; try lia. right.
    repeat split; try assumption. exists []. split; [reflexivity|].
    left. auto.
Qed.

Lemma parseFirstBerTLV_body_consumed self fuel (b : bytes) (t : BerTLV)
    (n : Z) :
  parseFirstBerTLV_body self fuel b = Ok (t, n) -> 2 <= n <= len b.
Proof.
  intros H. apply parseFirstBerTLV_body_ok in H.
  destruct H as (tag & length & lLen & Etag & Elen & Hb & Hcase).
  destruct (parseTag_ok _ _ Etag) as (_ & Htl & _).
  destruct (parseLength_ok_bounds _ _ _ Elen) as (Hl & _ & Hv).
  destruct Hcase as [(-> & _ & ->)|(_ & -> & _)]; lia.
Qed.

Lemma parseFirstBerTLV_fuel_consumed (fuel : nat) (b : bytes) (t : BerTLV)
    (n : Z) :
  parseFirstBerTLV_fuel fuel b = Ok (t, n) -> 2 <= n <= len b.
Proof.
  destruct fuel as [|fuel']; [discriminate|].
  apply parseFirstBerTLV_body_consumed.
Qed.

(** ** Decoder: the unrolling bound is immaterial *)

Lemma slice_from_inside (b : bytes) (index : Z) :
  0 <= index < len b ->
  slice_from b index <> [] /\
  (length (slice_from b index) <= length b)%nat.
Proof.
  unfold slice_from, len. intros H. split.
  - intros E. apply (f_equal (@length byte)) in E.
    rewrite length_skipn in E. cbn [length] in E. lia.
  - rewrite length_skipn. lia.
Qed.

Section Loop.

Variables (step step' : bytes -> result (BerTLV * Z)).
Variable wrap : Z -> error -> error.
Variable b : bytes.

(** The loop only calls its decoder on sub-slices of [b]. *)
Lemma parseLoop_ext :
  (forall s, (length s <= length b)%nat -> step s = step' s) ->
  forall fuel index acc,
    parseLoop step wrap fuel b index acc
    = parseLoop step' wrap fuel b index acc.
Proof.
  intros Hext fuel. induction fuel as [|fuel IH]; intros index acc.
  - reflexivity.
  - cbn [parseLoop]. destruct (Z.ltb_spec index (len b)) as [Hi|Hi];
      [|reflexivity].
    rewrite <- (Hext (slice_from b index))
      by (unfold slice_from; rewrite length_skipn; lia).
    destruct (step (slice_from b index)) as [[tlv n]| | |]; auto.
Qed.

Hypothesis step_advances :
  forall s t n, step s = Ok (t, n) -> 1 <= n.

Lemma parseLoop_fuel_irrelevant :
  forall fuel1 fuel2 index acc,
    len b - index <= Z.of_nat fuel1 ->
    len b - index <= Z.of_nat fuel2 ->
    parseLoop step wrap fuel1 b index acc
    = parseLoop step wrap fuel2 b index acc.
Proof.
  induction fuel1 as [|fuel1 IH]; intros fuel2 index acc H1 H2.
  - destruct fuel2; cbn [parseLoop];
      destruct (Z.ltb_spec index (len b)); try reflexivity; lia.
  - destruct fuel2 as [|fuel2]; cbn [parseLoop];
      destruct (Z.ltb_spec index (len b)); try reflexivity; try lia.
    destruct (step (slice_from b index)) as [[tlv n]| | |] eqn:E;
      try reflexivity.
    apply step_advances in E. apply IH; lia.
Qed.

Lemma parseLoop_returns :
  (forall s, s <> [] -> (length s <= length b)%nat ->
             step s <> Panic /\ step s <> OutOfFuel) ->
  forall fuel index acc,
    0 <= index -> len b - index <= Z.of_nat fuel ->
    parseLoop step wrap fuel b index acc <> Panic /\
    parseLoop step wrap fuel b index acc <> OutOfFuel.
Proof.
  intros Hret. induction fuel as [|fuel IH]; intros index acc H0 Hf;
    cbn [parseLoop]; destruct (Z.ltb_spec index (len b)) as [Hi|Hi];
    try (split; discriminate); try lia.
  destruct (slice_from_inside b index (conj H0 Hi)) as (Hne & Hle).
  destruct (Hret _ Hne Hle) as (Hp & Ho).
  destruct (step (slice_from b index)) as [[tlv n]| | |] eqn:E;
    try (split; discriminate); try congruence.
  apply step_advances in E. apply IH; lia.
Qed.

End Loop.

Lemma length_value_lt (b : bytes) (i j : Z) :
  2 <= i -> len (slice b i j) <> 0 ->
  (length (slice b i j) < length b)%nat.
Proof.
  intros Hi Hne. pose proof (length_slice_le b i j) as Hle.
  unfold len in Hne. lia.
Qed.

(** Two runs of the body agree when their recursive calls agree on the
    strictly shorter inputs and both child loops may run long enough. *)
Lemma parseFirstBerTLV_body_ext self1 self2 (fuel1 fuel2 : nat) (b : bytes) :
  (forall s, (length s < length b)%nat -> self1 s = self2 s) ->
  (forall s t n, self1 s = Ok (t, n) -> 1 <= n) ->
  (length b <= fuel1)%nat -> (length b <= fuel2)%nat ->
  parseFirstBerTLV_body self1 fuel1 b = parseFirstBerTLV_body self2 fuel2 b.
Proof.
  intros Hext Hadv Hf1 Hf2. unfold parseFirstBerTLV_body.
  destruct (parseTag b) as [tag| | |] eqn:Etag; try reflexivity.
  destruct (parseLength (slice_from b (len tag))) as [[vlen lLen]| | |]
    eqn:Elen; try reflexivity.
  destruct (parseTag_ok _ _ Etag) as (_ & Htl & _).
  destruct (parseLength_ok_bounds _ _ _ Elen) as (Hl & _ & Hv).
  cbv zeta.
  destruct (len tag + lLen + vlen - 1 >? len b - 1); [reflexivity|].
  set (value := slice b (len tag + lLen) (len tag + lLen + vlen)).
  destruct (Z.eqb_spec (len value) 0) as [|Hne]; [reflexivity|].
  destruct (IsConstructed tag); [|reflexivity].
  assert (Hlt : (length value < length b)%nat)
    by (apply length_value_lt; [lia|assumption]).
  rewrite (parseLoop_fuel_irrelevant self1 _ value Hadv fuel1 fuel2)
    by (unfold len; lia).
  rewrite (parseLoop_ext self1 self2 _ value); [reflexivity|].
  intros s Hs. apply Hext. lia.
Qed.

Lemma parseFirstBerTLV_fuel_irrelevant :
  forall fuel1 fuel2 b,
    (length b < fuel1)%nat -> (length b < fuel2)%nat ->
    parseFirstBerTLV_fuel fuel1 b = parseFirstBerTLV_fuel fuel2 b.
Proof.
  induction fuel1 as [|fuel1 IH]; intros fuel2 b H1 H2; [lia|].
  destruct fuel2 as [|fuel2]; [lia|]. cbn [parseFirstBerTLV_fuel].
  apply parseFirstBerTLV_body_ext; try lia.
  - intros s Hs. apply IH; lia.
  - intros s t n E. apply parseFirstBerTLV_fuel_consumed in E. lia.
Qed.

(** The recursive equation of [parseFirstBerTLV], as the source reads. *)
Lemma parseFirstBerTLV_unfold (b : bytes) (fuel : nat) :
  (length b <= fuel)%nat ->
  parseFirstBerTLV b = parseFirstBerTLV_body parseFirstBerTLV fuel b.
Proof.
  intros Hf. unfold parseFirstBerTLV at 1. cbn [parseFirstBerTLV_fuel].
  apply parseFirstBerTLV_body_ext; try lia.
  - intros s Hs. apply parseFirstBerTLV_fuel_irrelevant; lia.
  - intros s t n E. apply parseFirstBerTLV_fuel_consumed in E. lia.
Qed.

Lemma parseFirstBerTLV_consumed (b : bytes) (t : BerTLV) (n : Z) :
  parseFirstBerTLV b = Ok (t, n) -> 2 <= n <= len b.
Proof. apply parseFirstBerTLV_fuel_consumed. Qed.

(** [parseFirstBerTLV] returns on every non-empty input: the unrolling
    never runs out and nothing panics. *)
Lemma parseFirstBerTLV_fuel_returns :
  forall fuel b,
    b <> [] -> (length b < fuel)%nat ->
    parseFirstBerTLV_fuel fuel b <> Panic /\
    parseFirstBerTLV_fuel fuel b <> OutOfFuel.
Proof.
  induction fuel as [|fuel IH]; intros b Hne Hf; [lia|].
  cbn [parseFirstBerTLV_fuel]. unfold parseFirstBerTLV_body.
  pose proof (parseTag_no_panic b Hne) as Hp.
  pose proof (parseTag_no_OutOfFuel b) as Ho.
  destruct (parseTag b) as [tag| | |] eqn:Etag;
    try (split; discriminate); try congruence.
  destruct (parseLength_returns (slice_from b (len tag))) as (Hp' & Ho').
  destruct (parseLength (slice_from b (len tag))) as [[vlen lLen]| | |]
    eqn:Elen; try (split; discriminate); try congruence.
  destruct (parseTag_ok _ _ Etag) as (_ & Htl & _).
  destruct (parseLength_ok_bounds _ _ _ Elen) as (Hl & _ & Hv).
  cbv zeta.
  destruct (len tag + lLen + vlen - 1 >? len b - 1);
    [split; discriminate|].
  set (value := slice b (len tag + lLen) (len tag + lLen + vlen)).
  destruct (Z.eqb_spec (len value) 0) as [|Hnz]; [split; discriminate|].
  destruct (IsConstructed tag); [|split; discriminate].
  assert (Hlt : (length value < length b)%nat)
    by (apply length_value_lt; [lia|assumption]).
  destruct (parseLoop_returns (parseFirstBerTLV_fuel fuel)
              (fun _ e => WrapInvalidChildObject tag e) value) with
    (fuel := fuel) (index := 0) (acc := @nil BerTLV) as (Hlp & Hlo).
  - intros s t n E. apply parseFirstBerTLV_fuel_consumed in E. lia.
  - intros s Hs Hle. apply IH; [assumption|lia].
  - lia.
  - unfold len. lia.
  - destruct (parseLoop _ _ fuel value 0 []); try (split; discriminate);
      congruence.
Qed.

Lemma parseFirstBerTLV_returns (b : bytes) :
  b <> [] ->
  parseFirstBerTLV b <> Panic /\ parseFirstBerTLV b <> OutOfFuel.
Proof.
  intros Hne. apply parseFirstBerTLV_fuel_returns; [assumption|lia].
Qed.

(** [Parse] returns on every input. *)
Lemma Parse_returns (b : bytes) :
  Parse b <> Panic /\ Parse b <> OutOfFuel.
Proof.
  unfold Parse. destruct (len b =? 0); [split; discriminate|].
  destruct (parseLoop_returns parseFirstBerTLV
              (fun index e => WrapInvalidTLVAtIndex index e) b) with
    (fuel := length b) (index := 0) (acc := @nil BerTLV) as (Hp & Ho).
  - intros s t n E. apply parseFirstBerTLV_consumed in E. lia.
  - intros s Hs _. apply parseFirstBerTLV_returns. assumption.
  - lia.
  - unfold len. lia.
  - destruct (parseLoop _ _ (length b) b 0 []); try (split; discriminate);
      congruence.
Qed.

(** ** Decoder: edge cases *)

Lemma parseLoop_done step wrap (fuel : nat) (b : bytes) (index : Z)
    (acc : list BerTLV) :
  len b <= index -> parseLoop step wrap fuel b index acc = Ok acc.
Proof.
  intros H. destruct fuel; cbn [parseLoop];
    destruct (Z.ltb_spec index (len b)); try reflexivity; lia.
Qed.

Lemma parseLoop_next step wrap (fuel : nat) (b : bytes) (index : Z)
    (acc : list BerTLV) (t : BerTLV) (n : Z) :
  index < len b ->
  step (slice_from b index) = Ok (t, n) ->
  parseLoop step wrap (S fuel) b index acc
  = parseLoop step wrap fuel b (index + n) (acc ++ [t]).
Proof.
  intros Hi E. cbn [parseLoop].
  destruct (Z.ltb_spec index (len b)); [|lia]. rewrite E. reflexivity.
Qed.

(** A declared length of 0 ends the body before the child loop, whatever
    the recursive call would do. *)
Lemma parseFirstBerTLV_body_empty_value self (fuel : nat) (b : bytes)
    (tag : BerTag) (lLen : Z) :
  parseTag b = Ok tag ->
  parseLength (slice_from b (len tag)) = Ok (0, lLen) ->
  parseFirstBerTLV_body self fuel b
  = Ok (mkBerTLV tag [] [], len tag + lLen).
Proof.
  intros Etag Elen. unfold parseFirstBerTLV_body. rewrite Etag, Elen.
  destruct (parseTag_ok _ _ Etag) as ((rest & ->) & Htl & _).
  rewrite slice_from_app in Elen.
  destruct (parseLength_ok_bounds _ _ _ Elen) as (Hl & Hle & _).
  cbv zeta. rewrite len_app.
  destruct (Z.gtb_spec (len tag + lLen + 0 - 1) (len tag + len rest - 1));
    [lia|].
  unfold slice.
  replace (len tag + lLen + 0 - (len tag + lLen)) with 0 by lia.
  reflexivity.
Qed.

(** C6: when the first TLV of the input has a constructed tag and a
    declared length of 0, it decodes to the node with that tag, an empty
    value and no children; a single unrolling of the decoder produces it
    (the child loop is not entered), and an input that consists of just
    this TLV is decoded by [Parse] to that one node. *)
Theorem constructed_empty_value (b : bytes) (tag : BerTag) (lLen : Z) :
  parseTag b = Ok tag ->
  IsConstructed tag = true ->
  parseLength (slice_from b (len tag)) = Ok (0, lLen) ->
  parseFirstBerTLV b = Ok (mkBerTLV tag [] [], len tag + lLen) /\
  parseFirstBerTLV_fuel 1 b = Ok (mkBerTLV tag [] [], len tag + lLen) /\
  (len b = len tag + lLen -> Parse b = Ok [mkBerTLV tag [] []]).
Proof.
  intros Etag _ Elen.
  assert (Hfirst : parseFirstBerTLV b
                   = Ok (mkBerTLV tag [] [], len tag + lLen))
    by (apply parseFirstBerTLV_body_empty_value; assumption).
  split; [assumption|].
  split; [apply parseFirstBerTLV_body_empty_value; assumption|].
  intros Hall.
  destruct (parseTag_ok _ _ Etag) as (_ & Htl & _).
  destruct (parseLength_ok_bounds _ _ _ Elen) as (Hl & _ & _).
  unfold Parse. destruct (Z.eqb_spec (len b) 0); [lia|].
  destruct (length b) as [|fuel] eqn:Elb; [unfold len in Hall; lia|].
  rewrite (parseLoop_next _ _ fuel b 0 [] (mkBerTLV tag [] [])
             (len tag + lLen)) by (assumption || lia).
  rewrite parseLoop_done by lia. reflexivity.
Qed.

Lemma constructed_empty_value_witness :
  parseFirstBerTLV [x71; x00] = Ok (mkBerTLV [x71] [] [], 2) /\
  Parse [x71; x00] = Ok [mkBerTLV [x71] [] []].
Proof.
  destruct (constructed_empty_value [x71; x00] [x71] 1) as (H1 & _ & H3);
    try reflexivity.
  split; [exact H1|]. apply H3. reflexivity.
Defined.

(** C8: [Parse] of 71 01 01 fails.  The outer TLV is well-formed (tag 71,
    declared length 1, one value byte present); the child decoder reads
    tag 01 from the value and finds no length byte; that error is wrapped
    with the parent tag 71, then with the index 0, and the empty
    [BerTLVs{}] is returned next to it. *)
Theorem Parse_invalid_child :
  parseTag [x71; x01; x01] = Ok [x71] /\
  parseLength [x01; x01] = Ok (1, 1) /\
  parseFirstBerTLV [x01]
  = Err (zeroBerTLV, 0) (WrapInvalidLengthEncoding [x01] ErrLengthMissing) /\
  parseFirstBerTLV [x71; x01; x01]
  = Err (zeroBerTLV, 0)
      (WrapInvalidChildObject [x71]
         (WrapInvalidLengthEncoding [x01] ErrLengthMissing)) /\
  Parse [x71; x01; x01]
  = Err []
      (WrapInvalidTLVAtIndex 0
         (WrapInvalidChildObject [x71]
            (WrapInvalidLengthEncoding [x01] ErrLengthMissing))).
Proof. repeat split; reflexivity. Qed.

(** ** Builder *)

Lemma AddBytes_bytes (bu : Builder) (tag : BerTag) (v : bytes) :
  bu_bytes (AddBytes bu tag v)
  = bu_bytes bu ++ tag
      ++ buildLen (Z.min (len v) 65535) ++ slice_to v 65535.
Proof.
  unfold AddBytes, prependLengthBytes.
  destruct (Z.eqb_spec (len v) 0) as [Hz|Hz].
  - rewrite (len_zero_nil _ Hz). cbn [bu_bytes]. rewrite <- app_assoc.
    reflexivity.
  - pose proof (len_nonneg v).
    destruct (Z.gtb_spec (len v) 65535); cbn [bu_bytes].
    + rewrite len_slice_to by lia. rewrite Z.min_r by lia.
      rewrite <- app_assoc. reflexivity.
    + rewrite slice_to_all by lia. rewrite Z.min_l by lia.
      rewrite <- app_assoc. reflexivity.
Qed.

(** C7: adding tag 0A with value FF to the empty builder and building
    gives what [Parse] gives on 0A 01 FF, the one node with tag 0A and
    value FF; for every builder, [BuildBerTLVs] is [Parse] of the
    accumulated bytes, errors included. *)
Theorem Builder_equals_Parse :
  BuildBerTLVs (AddBytes emptyBuilder [x0a] [xff]) = Parse [x0a; x01; xff] /\
  Parse [x0a; x01; xff] = Ok [mkBerTLV [x0a] [xff] []] /\
  (forall bu : Builder, BuildBerTLVs bu = Parse (Builder_Bytes bu)) /\
  (forall (bu : Builder) (tag : BerTag) (v : bytes),
     BuildBerTLVs (AddBytes bu tag v)
     = Parse (Builder_Bytes bu ++ tag
                ++ buildLen (Z.min (len v) 65535) ++ slice_to v 65535)).
Proof.
  split; [reflexivity|]. split; [reflexivity|]. split; [reflexivity|].
  intros bu tag v. unfold BuildBerTLVs. rewrite AddBytes_bytes. reflexivity.
Qed.

(** ** Direct construction *)

(** C10: [IsConstructed] answers false on the empty tag, and [NewBerTLV]
    with the empty tag returns, for every value, the node holding that
    value with no children and a nil error. *)
Theorem NewBerTLV_empty_tag :
  IsConstructed [] = false /\
  (forall value : bytes,
     NewBerTLV [] value = Ok (Some (mkBerTLV [] value []))).
Proof.
  split; [reflexivity|]. intros value. reflexivity.
Qed.

(** ** Round trip *)

(** The body on the encoding of a tag, the length of a non-empty value
    that fits, and the value, followed by anything. *)
Lemma parseFirstBerTLV_body_encoded self (fuel : nat) (tag : BerTag)
    (value rest : bytes) :
  (forall r, parseTag (tag ++ r) = Ok tag) ->
  1 <= len value <= 65535 ->
  parseFirstBerTLV_body self fuel
    (((tag ++ buildLen (len value)) ++ value) ++ rest)
  = let n := len tag + len (buildLen (len value)) + len value in
    if IsConstructed tag then
      match
        parseLoop self (fun _ e => WrapInvalidChildObject tag e)
          fuel value 0 []
      with
      | Ok cs => Ok (mkBerTLV tag value cs, n)
      | Err _ e => Err (zeroBerTLV, 0) e
      | Panic => Panic
      | OutOfFuel => OutOfFuel
      end
    else Ok (mkBerTLV tag value [], n).
Proof.
  intros Htag Hv. unfold parseFirstBerTLV_body.
  set (L := buildLen (len value)).
  set (b' := ((tag ++ L) ++ value) ++ rest).
  assert (Eb : b' = tag ++ (L ++ value ++ rest))
    by (subst b'; rewrite <- !app_assoc; reflexivity).
  assert (Et : parseTag b' = Ok tag) by (rewrite Eb; apply Htag).
  assert (El : parseLength (slice_from b' (len tag)) = Ok (len value, len L)).
  { rewrite Eb, slice_from_app. subst L.
    apply parseLength_buildLen. pose proof (len_nonneg value). lia. }
  rewrite Et, El. cbv zeta.
  assert (HL : 1 <= len L <= 3).
  { subst L. rewrite len_buildLen.
    destruct (len value <=? 127); [lia|].
    destruct (len value <=? 255); lia. }
  pose proof (len_nonneg tag). pose proof (len_nonneg rest).
  assert (Elen : len b' = len tag + len L + len value + len rest)
    by (subst b'; rewrite !len_app; lia).
  rewrite Elen.
  destruct (Z.gtb_spec (len tag + len L + len value - 1)
              (len tag + len L + len value + len rest - 1)); [lia|].
  subst b'. rewrite (slice_app_prefix (tag ++ L) value rest)
    by (rewrite ?len_app; lia).
  destruct (Z.eqb_spec (len value) 0); [lia|]. reflexivity.
Qed.

Lemma BerTLV_Bytes_regular (tag : BerTag) (value : bytes)
    (cs : list BerTLV) :
  1 <= len tag <= 3 -> len value <= 65535 ->
  BerTLV_Bytes (mkBerTLV tag value cs)
  = (tag ++ buildLen (len value)) ++ value.
Proof.
  intros Ht Hv. rewrite BerTLV_Bytes_eq. cbn [Tag Value].
  rewrite emittedTag_regular, slice_to_all by lia.
  apply app_assoc.
Qed.

Lemma parseFirstBerTLV_reparses (s : bytes) (t : BerTLV) (n : Z) :
  parseFirstBerTLV s = Ok (t, n) ->
  reparses t /\ 1 <= len (Tag t) <= 3 /\ len (Value t) <= 65535.
Proof.
  intros H. rewrite (parseFirstBerTLV_unfold s (length s)) in H by lia.
  apply parseFirstBerTLV_body_ok in H.
  destruct H as (tag & vlen & lLen & Etag & Elen & Hb & Hcase).
  destruct (parseTag_ok _ _ Etag) as (_ & Htl & Hre).
  destruct (parseLength_ok_bounds _ _ _ Elen) as (Hl & _ & Hv).
  destruct Hcase as [(-> & -> & ->)|(Hnz & -> & cs & -> & Hcs)].
  - cbn [Tag Value]. split; [|split; [assumption|unfold len; cbn; lia]].
    intros rest.
    rewrite BerTLV_Bytes_regular by (assumption || (unfold len; cbn; lia)).
    rewrite app_nil_r, <- app_assoc.
    change (len (@nil byte)) with 0.
    rewrite (parseFirstBerTLV_unfold _ (length (tag ++ buildLen 0 ++ rest)))
      by lia.
    rewrite (parseFirstBerTLV_body_empty_value _ _ _ tag 1).
    + rewrite len_app. reflexivity.
    + apply Hre.
    + rewrite slice_from_app. reflexivity.
  - set (value := slice s (len tag + lLen) (len tag + lLen + vlen)) in *.
    assert (Hlen : len value = vlen)
      by (subst value; rewrite len_slice; lia).
    cbn [Tag Value]. split; [|split; [assumption|lia]].
    intros rest. rewrite BerTLV_Bytes_regular by lia.
    set (b' := ((tag ++ buildLen (len value)) ++ value) ++ rest).
    rewrite (parseFirstBerTLV_unfold b' (length b')) by lia.
    subst b'. rewrite parseFirstBerTLV_body_encoded by (assumption || lia).
    cbv zeta. rewrite !len_app.
    destruct Hcs as [(-> & ->)|(-> & Hloop)]; [reflexivity|].
    rewrite (parseLoop_fuel_irrelevant parseFirstBerTLV _ value)
      with (fuel2 := length s).
    + rewrite Hloop. reflexivity.
    + intros s' t' n' E. apply parseFirstBerTLV_consumed in E. lia.
    + unfold len. rewrite !length_app. lia.
    + pose proof (length_slice_le s (len tag + lLen)
                    (len tag + lLen + vlen)).
      fold value in H. unfold len. lia.
Qed.

Section LoopResult.

Variable step : bytes -> result (BerTLV * Z).
Variable wrap : Z -> error -> error.
Variable P : BerTLV -> Prop.
Hypothesis step_P : forall s t n, step s = Ok (t, n) -> P t.

(** Every node a successful loop appended came from a successful
    call of its decoder, and at least one was appended if the loop ran. *)
Lemma parseLoop_ok_Forall :
  forall fuel b index acc r,
    parseLoop step wrap fuel b index acc = Ok r ->
    exists ts,
      r = acc ++ ts /\ Forall P ts /\ (index < len b -> ts <> []).
Proof.
  induction fuel as [|fuel IH]; intros b index acc r; cbn [parseLoop];
    destruct (Z.ltb_spec index (len b)) as [Hi|Hi]; try discriminate.
  - intros E. injection E as <-. exists []. rewrite app_nil_r.
    repeat split; [constructor|lia].
  - destruct (step (slice_from b index)) as [[t n]| | |] eqn:Es;
      try discriminate.
    intros E. apply IH in E. destruct E as (ts & -> & Hts & _).
    exists (t :: ts). rewrite <- app_assoc.
    repeat split; [|discriminate].
    constructor; [eapply step_P; eassumption|assumption].
  - intros E. injection E as <-. exists []. rewrite app_nil_r.
    repeat split; [constructor|lia].
Qed.

End LoopResult.

Lemma BerTLVs_Bytes_concat (ts : BerTLVs) :
  BerTLVs_Bytes ts = concat (map BerTLV_Bytes ts).
Proof.
  unfold BerTLVs_Bytes.
  assert (G : forall acc,
             fold_left (fun b tlv => b ++ BerTLV_Bytes tlv) ts acc
             = acc ++ concat (map BerTLV_Bytes ts)).
  { induction ts as [|t ts IH]; intros acc; cbn.
    - symmetry. apply app_nil_r.
    - rewrite IH, <- app_assoc. reflexivity. }
  apply G.
Qed.

Lemma len_BerTLV_Bytes_pos (t : BerTLV) : 2 <= len (BerTLV_Bytes t).
Proof.
  rewrite BerTLV_Bytes_eq, !len_app, len_buildLen.
  pose proof (len_nonneg (slice_to (Value t) 65535)).
  assert (1 <= len (emittedTag (Tag t))).
  { unfold emittedTag. destruct (Tag t) as [|t0 r]; [unfold len; cbn; lia|].
    change (slice_to (t0 :: r) 3) with (t0 :: firstn 2 r).
    unfold len. cbn [length]. lia. }
  destruct (len (slice_to (Value t) 65535) <=? 127); [lia|].
  destruct (len (slice_to (Value t) 65535) <=? 255); lia.
Qed.

(** The loop over a concatenation of encodings of nodes that decode
    again gives those nodes back. *)
Lemma parseLoop_encoded wrap :
  forall (ts : BerTLVs) (pre : bytes) (acc : list BerTLV) (fuel : nat),
    Forall reparses ts ->
    len (concat (map BerTLV_Bytes ts)) <= Z.of_nat fuel ->
    parseLoop parseFirstBerTLV wrap fuel
      (pre ++ concat (map BerTLV_Bytes ts)) (len pre) acc
    = Ok (acc ++ ts).
Proof.
  induction ts as [|t ts IH]; intros pre acc fuel Hall Hf.
  - cbn [map concat]. rewrite app_nil_r, parseLoop_done by lia.
    rewrite app_nil_r. reflexivity.
  - inversion Hall as [|? ? Ht Hts]; subst.
    cbn [map concat] in *. rewrite len_app in Hf.
    pose proof (len_BerTLV_Bytes_pos t) as Hpos.
    pose proof (len_nonneg (concat (map BerTLV_Bytes ts))) as Hrest.
    destruct fuel as [|fuel]; [lia|].
    rewrite (parseLoop_next _ _ fuel _ (len pre) acc t
               (len (BerTLV_Bytes t))).
    + rewrite app_assoc, <- len_app, IH by (assumption || lia).
      rewrite <- app_assoc. reflexivity.
    + rewrite !len_app. lia.
    + rewrite slice_from_app. apply Ht.
Qed.

(** C1: a tree returned by a successful [Parse] is returned again by
    [Parse] of its own encoding; none of its nodes triggers a truncation
    in the encoder (tags of 1 to 3 bytes, values of at most 65535). *)
Theorem Parse_Bytes_round_trip (b : bytes) (T : BerTLVs) :
  Parse b = Ok T ->
  Parse (BerTLVs_Bytes T) = Ok T /\
  Forall (fun t => 1 <= len (Tag t) <= 3 /\ len (Value t) <= 65535) T.
Proof.
  unfold Parse at 1. destruct (Z.eqb_spec (len b) 0) as [|Hne];
    [discriminate|].
  destruct (parseLoop _ _ (length b) b 0 []) as [r| | |] eqn:Eloop;
    try discriminate.
  intros E. injection E as ->.
  apply (parseLoop_ok_Forall parseFirstBerTLV _
           (fun t => reparses t /\
                     1 <= len (Tag t) <= 3 /\ len (Value t) <= 65535))
    in Eloop; [|intros s t n; apply parseFirstBerTLV_reparses].
  destruct Eloop as (ts & -> & Hall & Hnil). cbn [app].
  pose proof (len_nonneg b).
  split; [|eapply Forall_impl; [|exact Hall]; cbn; intros a Ha; apply Ha].
  assert (Hre : Forall reparses ts)
    by (eapply Forall_impl; [|exact Hall]; cbn; intros a Ha; apply Ha).
  destruct ts as [|t ts]; [exfalso; apply Hnil; [lia|reflexivity]|].
  rewrite BerTLVs_Bytes_concat.
  set (enc := concat (map BerTLV_Bytes (t :: ts))).
  assert (Henc : 2 <= len enc).
  { subst enc. cbn [map concat]. rewrite len_app.
    pose proof (len_BerTLV_Bytes_pos t).
    pose proof (len_nonneg (concat (map BerTLV_Bytes ts))). lia. }
  unfold Parse. destruct (Z.eqb_spec (len enc) 0); [lia|].
  pose proof (parseLoop_encoded
                (fun index e => WrapInvalidTLVAtIndex index e)
                (t :: ts) [] [] (length enc) Hre) as Hloop.
  cbn [app] in Hloop. change (len (@nil byte)) with 0 in Hloop.
  fold enc in Hloop. rewrite Hloop; [reflexivity|]. unfold len. lia.
Qed.

Lemma Parse_Bytes_round_trip_witness :
  Parse (BerTLVs_Bytes
           [mkBerTLV [x71] [xb0; x03; x0f; x81; x00]
              [mkBerTLV [xb0] [x0f; x81; x00] [mkBerTLV [x0f] [] []]];
            mkBerTLV [x1f; x0a] [xff] []])
  = Ok [mkBerTLV [x71] [xb0; x03; x0f; x81; x00]
          [mkBerTLV [xb0] [x0f; x81; x00] [mkBerTLV [x0f] [] []]];
        mkBerTLV [x1f; x0a] [xff] []].
Proof.
  apply (Parse_Bytes_round_trip
           [x71; x82; x00; x05; xb0; x03; x0f; x81; x00;
            x1f; x0a; x01; xff]).
  reflexivity.
Defined.

(** * Further properties of the package *)

(** ** Tag codec *)

(** [parseTag] panics exactly on the empty slice, and fails exactly when
    the first byte announces a second byte that is missing, or the second
    byte announces a third byte that is missing. *)
Theorem parseTag_outcomes (b : bytes) :
  (parseTag b = Panic <-> b = []) /\
  ((exists v e, parseTag b = Err v e) <->
     exists b0 r, b = b0 :: r /\
       Z.land (byte_val b0) 0x1F = 0x1F /\
       (r = [] \/ exists b1, r = [b1] /\ Z.land (byte_val b1) 0x80 = 0x80)).
Proof.
  unfold parseTag, NewOneByteTag, NewTwoByteTag, NewThreeByteTag.
  destruct b as [|b0 r0].
  { split; [split; reflexivity|]. split.
    - intros (v & e & H). discriminate.
    - intros (c0 & r & H & _). discriminate. }
  destruct (Z.eqb_spec (Z.land (byte_val b0) 0x1F) 0x1F) as [E0|E0];
    cbn [negb].
  2:{ split; [split; discriminate|]. split.
      - intros (v & e & H). discriminate.
      - intros (c0 & r & H & Hc & _). injection H as <- <-. contradiction. }
  destruct r0 as [|b1 r1].
  { split; [split; discriminate|]. split; [|eauto].
    intros _. exists b0, []. auto. }
  destruct (Z.eqb_spec (Z.land (byte_val b1) 0x80) 0x80) as [E1|E1];
    cbn [negb].
  2:{ split; [split; discriminate|]. split.
      - intros (v & e & H). discriminate.
      - intros (c0 & r & H & _ & [Hr|(c1 & Hr & Hc)]);
          injection H as <- <-; [discriminate|].
        injection Hr as <- _. contradiction. }
  destruct r1 as [|b2 r2].
  - split; [split; discriminate|]. split; [|eauto].
    intros _. exists b0, [b1]. repeat split; try assumption.
    right. exists b1. auto.
  - split; [split; discriminate|]. split.
    + intros (v & e & H). discriminate.
    + intros (c0 & r & H & _ & [Hr|(c1 & Hr & _)]);
        injection H as <- <-; discriminate.
Qed.

Lemma parseTag_outcomes_witness :
  exists v e, parseTag [x1f; x81] = Err v e.
Proof.
  apply (proj2 (parseTag_outcomes [x1f; x81])).
  exists x1f, [x81]. repeat split. right. exists x81. split; reflexivity.
Defined.

Lemma CheckEncoding_parseTag (t : BerTag) :
  CheckEncoding t = CheckNil <-> parseTag t = Ok t.
Proof.
  unfold CheckEncoding, parseTag, NewOneByteTag, NewTwoByteTag,
    NewThreeByteTag, len.
  destruct t as [|t0 [|t1 [|t2 [|t3 r]]]]; cbn [length].
  - split; discriminate.
  - cbn. destruct (Z.land (byte_val t0) 31 =? 31); cbn [negb];
      split; try discriminate; reflexivity.
  - cbn. destruct (Z.land (byte_val t0) 31 =? 31); cbn [negb].
    + destruct (Z.land (byte_val t1) 128 =? 128); cbn [negb];
        split; try discriminate; reflexivity.
    + split; [discriminate|]. intros H. discriminate.
  - cbn. destruct (Z.land (byte_val t0) 31 =? 31); cbn [negb].
    + destruct (Z.land (byte_val t1) 128 =? 128); cbn [negb];
        split; try discriminate; reflexivity.
    + split; [discriminate|]. intros H. discriminate.
  - destruct (Z.gtb_spec (Z.of_nat (S (S (S (S (length r)))))) 3); [|lia].
    split; [discriminate|].
    destruct (negb (Z.land (byte_val t0) 31 =? 31)); [discriminate|].
    destruct (negb (Z.land (byte_val t1) 128 =? 128)); discriminate.
Qed.

(** [CheckEncoding] accepts a tag exactly when [parseTag], given the
    bytes of the tag alone, returns all of them; it panics exactly on the
    empty tag. *)
Theorem CheckEncoding_accepts_what_parseTag_returns (t : BerTag) :
  (CheckEncoding t = CheckNil <-> parseTag t = Ok t) /\
  (CheckEncoding t = CheckPanic <-> t = []).
Proof.
  split; [apply CheckEncoding_parseTag|].
  unfold CheckEncoding, len.
  destruct t as [|t0 [|t1 [|t2 [|t3 r]]]]; cbn [length].
  - split; reflexivity.
  - cbn. destruct (Z.land (byte_val t0) 31 =? 31); split; discriminate.
  - cbn. destruct (Z.land (byte_val t0) 31 =? 31); cbn [negb];
      [|split; discriminate].
    destruct (Z.land (byte_val t1) 128 =? 128); split; discriminate.
  - cbn. destruct (Z.land (byte_val t0) 31 =? 31); cbn [negb];
      [|split; discriminate].
    destruct (Z.land (byte_val t1) 128 =? 128); split; discriminate.
  - destruct (Z.gtb_spec (Z.of_nat (S (S (S (S (length r)))))) 3); [|lia].
    split; discriminate.
Qed.

Lemma CheckEncoding_accepts_what_parseTag_returns_witness :
  CheckEncoding [x1f; x0a] = CheckNil.
Proof.
  apply (proj1 (CheckEncoding_accepts_what_parseTag_returns [x1f; x0a])).
  reflexivity.
Defined.

Lemma parseTag_CheckEncoding (b : bytes) (tag : BerTag) :
  parseTag b = Ok tag -> CheckEncoding tag = CheckNil.
Proof.
  intros H. apply CheckEncoding_parseTag.
  destruct (parseTag_ok _ _ H) as (_ & _ & Hre).
  rewrite <- (app_nil_r tag) at 1. apply Hre.
Qed.

(** A tag returned by [parseTag] is a prefix of the input of 1 to 3
    bytes, passes [CheckEncoding], and is returned again from any input
    that starts with it. *)
Theorem parseTag_sound (b : bytes) (tag : BerTag) :
  parseTag b = Ok tag ->
  (exists rest, b = tag ++ rest) /\
  1 <= len tag <= 3 /\
  CheckEncoding tag = CheckNil /\
  (forall rest, parseTag (tag ++ rest) = Ok tag).
Proof.
  intros H. destruct (parseTag_ok _ _ H) as (Hp & Hl & Hre).
  repeat split; try assumption; try lia.
  eapply parseTag_CheckEncoding; eassumption.
Qed.

Lemma parseTag_sound_witness :
  CheckEncoding [x1f; x81; x0a] = CheckNil.
Proof.
  apply (parseTag_sound [x1f; x81; x0a; x00; x05] [x1f; x81; x0a]).
  reflexivity.
Defined.

(** [Class] panics on the empty tag; otherwise it is decided by the value
    of the first byte: below 64 universal, below 128 application, below
    192 context-specific, else private. *)
Theorem BerTag_Class_by_range (t : BerTag) :
  BerTag_Class t =
    match t with
    | [] => Panic
    | t0 :: _ =>
        if byte_val t0 <? 64 then Ok Universal
        else if byte_val t0 <? 128 then Ok Application
        else if byte_val t0 <? 192 then Ok ContextSpecific
        else Ok Private
    end.
Proof.
  destruct t as [|t0 r]; [reflexivity|].
  unfold BerTag_Class. destruct t0; reflexivity.
Qed.

(** ** Length codec *)

Lemma buildLen_shortest (s : bytes) (v k : Z) :
  parseLength s = Ok (v, k) -> len (buildLen v) <= k.
Proof.
  destruct s as [|b0 r]; [discriminate|]. rewrite parseLength_cons.
  rewrite len_buildLen. pose proof (byte_val_range b0).
  destruct (Z.leb_spec (byte_val b0) 0x7F).
  { intros E. injection E as <- <-.
    destruct (Z.leb_spec (byte_val b0) 127); lia. }
  destruct (byte_val b0 =? 0x81).
  { destruct r as [|b1 r]; [discriminate|]. intros E. injection E as <- <-.
    pose proof (byte_val_range b1).
    destruct (byte_val b1 <=? 127); [lia|].
    destruct (Z.leb_spec (byte_val b1) 255); lia. }
  destruct (byte_val b0 =? 0x82); [|discriminate].
  destruct r as [|b1 [|b2 r]]; try discriminate.
  intros E. injection E as <- <-.
  destruct (_ <=? 127); [lia|]. destruct (_ <=? 255); lia.
Qed.

(** [parseLength] undoes [buildLen] on every length up to 65535, whatever
    follows, and no accepted encoding of a length is shorter than the one
    [buildLen] produces. *)
Theorem parseLength_buildLen_round_trip (n : Z) (rest : bytes) :
  0 <= n <= 65535 ->
  parseLength (buildLen n ++ rest) = Ok (n, len (buildLen n)) /\
  (forall s k, parseLength s = Ok (n, k) -> len (buildLen n) <= k).
Proof.
  intros Hn. split; [apply parseLength_buildLen; assumption|].
  intros s k. apply buildLen_shortest.
Qed.

Lemma parseLength_buildLen_round_trip_witness :
  parseLength (buildLen 300 ++ [xaa]) = Ok (300, len (buildLen 300)).
Proof.
  apply (parseLength_buildLen_round_trip 300 [xaa]). lia.
Defined.

(** [parseLength] reads only the length bytes it reports. *)
Lemma parseLength_prefix (L x y : bytes) (v : Z) :
  parseLength (L ++ x) = Ok (v, len L) ->
  parseLength (L ++ y) = Ok (v, len L).
Proof.
  destruct L as [|b0 L]; [cbn [app]; intros H|].
  { apply parseLength_ok_bounds in H. unfold len in H. cbn in H. lia. }
  cbn [app]. rewrite !parseLength_cons. unfold len. cbn [length].
  destruct (byte_val b0 <=? 0x7F); [auto|].
  destruct (byte_val b0 =? 0x81).
  { destruct L as [|b1 [|b2 L]]; cbn [app length]; [destruct x| |];
      try discriminate; auto; intros E; injection E as _ E; lia. }
  destruct (byte_val b0 =? 0x82); [|discriminate].
  destruct L as [|b1 [|b2 [|b3 L]]]; cbn [app length];
    [destruct x as [|? [|? ?]]|destruct x as [|? ?]| |];
    try discriminate; auto; intros E; injection E as _ E; lia.
Qed.

(** ** Decoder: what a successful decode of one TLV means *)

Lemma parseLoop_same_shape step wrap wrap' :
  forall (fuel : nat) (b : bytes) (index : Z) (acc : list BerTLV),
    match parseLoop step wrap fuel b index acc,
          parseLoop step wrap' fuel b index acc with
    | Ok r, Ok r' => r = r'
    | Err a _, Err a' _ => a = a'
    | Panic, Panic => True
    | OutOfFuel, OutOfFuel => True
    | _, _ => False
    end.
Proof.
  induction fuel as [|fuel IH]; intros b index acc; cbn [parseLoop];
    destruct (index <? len b); try exact I; try reflexivity.
  destruct (step (slice_from b index)) as [[t n]| | |];
    try exact I; try reflexivity.
  apply IH.
Qed.

Lemma parseLoop_ok_any_wrap step wrap wrap' (fuel : nat) (b : bytes)
    (index : Z) (acc r : list BerTLV) :
  parseLoop step wrap fuel b index acc = Ok r ->
  parseLoop step wrap' fuel b index acc = Ok r.
Proof.
  intros H. pose proof (parseLoop_same_shape step wrap wrap' fuel b index acc)
    as S.
  rewrite H in S. destruct (parseLoop step wrap' fuel b index acc);
    try contradiction. congruence.
Qed.

(** The child loop and the loop of [NewBerTLV] succeed on a non-empty
    slice exactly when [Parse] does, with the same nodes. *)
Lemma parseLoop_ok_Parse wrap (fuel : nat) (value : bytes)
    (cs : list BerTLV) :
  value <> [] -> (length value <= fuel)%nat ->
  parseLoop parseFirstBerTLV wrap fuel value 0 [] = Ok cs <->
  Parse value = Ok cs.
Proof.
  intros Hne Hf. unfold Parse.
  destruct (Z.eqb_spec (len value) 0) as [Hz|_];
    [apply len_zero_nil in Hz; contradiction|].
  rewrite (parseLoop_fuel_irrelevant parseFirstBerTLV wrap value)
    with (fuel2 := length value);
    [|intros s t n E; apply parseFirstBerTLV_consumed in E; lia
     |unfold len; lia|unfold len; lia].
  pose proof (parseLoop_same_shape parseFirstBerTLV wrap
                (fun index e => WrapInvalidTLVAtIndex index e)
                (length value) value 0 []) as S.
  destruct (parseLoop parseFirstBerTLV wrap (length value) value 0 []);
    destruct (parseLoop parseFirstBerTLV _ (length value) value 0 []);
    try contradiction; subst; split; intros E; congruence.
Qed.

(** The body on a tag, length bytes that declare the length of the value,
    the value, and anything after it. *)
Lemma parseFirstBerTLV_body_layout self (fuel : nat) (tag : BerTag)
    (L value rest : bytes) :
  (forall r, parseTag (tag ++ r) = Ok tag) ->
  parseLength (L ++ value ++ rest) = Ok (len value, len L) ->
  parseFirstBerTLV_body self fuel (((tag ++ L) ++ value) ++ rest)
  = if len value =? 0 then Ok (mkBerTLV tag [] [], len tag + len L)
    else
      let n := len tag + len L + len value in
      if IsConstructed tag then
        match
          parseLoop self (fun _ e => WrapInvalidChildObject tag e)
            fuel value 0 []
        with
        | Ok cs => Ok (mkBerTLV tag value cs, n)
        | Err _ e => Err (zeroBerTLV, 0) e
        | Panic => Panic
        | OutOfFuel => OutOfFuel
        end
      else Ok (mkBerTLV tag value [], n).
Proof.
  intros Htag Hlen. unfold parseFirstBerTLV_body.
  set (b' := ((tag ++ L) ++ value) ++ rest).
  assert (Eb : b' = tag ++ (L ++ value ++ rest))
    by (subst b'; rewrite <- !app_assoc; reflexivity).
  assert (Et : parseTag b' = Ok tag) by (rewrite Eb; apply Htag).
  assert (El : parseLength (slice_from b' (len tag)) = Ok (len value, len L))
    by (rewrite Eb, slice_from_app; assumption).
  rewrite Et, El. cbv zeta.
  pose proof (len_nonneg tag). pose proof (len_nonneg rest).
  pose proof (len_nonneg L).
  assert (Elen : len b' = len tag + len L + len value + len rest)
    by (subst b'; rewrite !len_app; lia).
  rewrite Elen.
  destruct (Z.gtb_spec (len tag + len L + len value - 1)
              (len tag + len L + len value + len rest - 1)); [lia|].
  subst b'. rewrite (slice_app_prefix (tag ++ L) value rest)
    by (rewrite ?len_app; lia).
  reflexivity.
Qed.

Lemma firstn_skipn_split {A : Type} (s : list A) (k : Z) :
  0 <= k <= len s ->
  exists p q, s = p ++ q /\ len p = k.
Proof.
  intros H. exists (firstn (Z.to_nat k) s), (skipn (Z.to_nat k) s).
  split; [symmetry; apply firstn_skipn|].
  unfold len in *. rewrite length_firstn. lia.
Qed.

(** What a successful [parseFirstBerTLV] has read. *)
Lemma parseFirstBerTLV_ok_inv (b : bytes) (t : BerTLV) (n : Z) :
  parseFirstBerTLV b = Ok (t, n) ->
  exists L rest,
    b = ((Tag t ++ L) ++ Value t) ++ rest /\
    (forall r, parseTag (Tag t ++ r) = Ok (Tag t)) /\
    parseLength (L ++ Value t ++ rest) = Ok (len (Value t), len L) /\
    n = len (Tag t) + len L + len (Value t) /\
    (Value t = [] \/ IsConstructed (Tag t) = false -> children t = []) /\
    (Value t <> [] -> IsConstructed (Tag t) = true ->
     Parse (Value t) = Ok (children t)).
Proof.
  intros H. rewrite (parseFirstBerTLV_unfold b (length b)) in H by lia.
  apply parseFirstBerTLV_body_ok in H.
  destruct H as (tag & vlen & lLen & Etag & Elen & Hb & Hcase).
  destruct (parseTag_ok _ _ Etag) as ((r1 & ->) & Htl & Hre).
  rewrite slice_from_app in Elen.
  destruct (parseLength_ok_bounds _ _ _ Elen) as (Hl & Hle & Hv).
  rewrite len_app in Hb.
  destruct (firstn_skipn_split r1 lLen ltac:(lia)) as (L & r2 & -> & HL).
  rewrite len_app in Hb, Hle.
  destruct (firstn_skipn_split r2 vlen ltac:(lia)) as (value & rest & -> & HV).
  assert (Hslice : slice (tag ++ L ++ value ++ rest) (len tag + lLen)
                     (len tag + lLen + vlen) = value).
  { rewrite !app_assoc. apply slice_app_prefix; rewrite ?len_app; lia. }
  rewrite Hslice in Hcase. subst lLen vlen.
  assert (Ht : exists cs, t = mkBerTLV tag value cs /\
                 n = len tag + len L + len value /\
                 (value = [] \/ IsConstructed tag = false -> cs = []) /\
                 (value <> [] -> IsConstructed tag = true ->
                  Parse value = Ok cs)).
  { destruct Hcase as [(Hz & -> & ->)|(Hnz & -> & cs & -> & Hcs)].
    - apply len_zero_nil in Hz. subst value. exists [].
      repeat split; try reflexivity; try (unfold len; cbn; lia).
      intros Hne. contradiction.
    - exists cs. split; [reflexivity|]. split; [reflexivity|].
      assert (Hne : value <> []) by (intros ->; apply Hnz; reflexivity).
      split.
      + intros [->|Hp]; [contradiction|].
        destruct Hcs as [(_ & ->)|(Hc & _)]; [reflexivity|congruence].
      + intros _ Hc. destruct Hcs as [(Hp & _)|(_ & Hloop)]; [congruence|].
        eapply parseLoop_ok_Parse; [exact Hne| |exact Hloop].
        rewrite !length_app. lia. }
  destruct Ht as (cs & -> & -> & Hnil & Hparse). cbn [Tag Value children].
  exists L, rest. split; [rewrite <- !app_assoc; reflexivity|].
  repeat split; assumption.
Qed.

(** The converse: from such a layout [parseFirstBerTLV] returns the node. *)
Lemma parseFirstBerTLV_ok_intro (tag : BerTag) (L value rest : bytes)
    (cs : list BerTLV) :
  (forall r, parseTag (tag ++ r) = Ok tag) ->
  parseLength (L ++ value ++ rest) = Ok (len value, len L) ->
  (value = [] \/ IsConstructed tag = false -> cs = []) ->
  (value <> [] -> IsConstructed tag = true -> Parse value = Ok cs) ->
  parseFirstBerTLV (((tag ++ L) ++ value) ++ rest)
  = Ok (mkBerTLV tag value cs, len tag + len L + len value).
Proof.
  intros Htag Hlen Hnil Hparse.
  set (b := ((tag ++ L) ++ value) ++ rest).
  rewrite (parseFirstBerTLV_unfold b (length b)) by lia. subst b.
  rewrite parseFirstBerTLV_body_layout by assumption.
  destruct (Z.eqb_spec (len value) 0) as [Hz|Hz].
  { apply len_zero_nil in Hz. subst value. rewrite Hnil by auto.
    change (len (@nil byte)) with 0. rewrite Z.add_0_r. reflexivity. }
  assert (Hne : value <> []) by (intros ->; apply Hz; reflexivity).
  cbv zeta. destruct (IsConstructed tag) eqn:Ec.
  - specialize (Hparse Hne eq_refl).
    apply (parseLoop_ok_Parse (fun _ e => WrapInvalidChildObject tag e)
             (length (((tag ++ L) ++ value) ++ rest))) in Hparse;
      [|assumption|rewrite !length_app; lia].
    rewrite Hparse. reflexivity.
  - rewrite Hnil by auto. reflexivity.
Qed.

(** [parseFirstBerTLV] returns a node and a count exactly when the input
    is the tag of the node (as [parseTag] reads it), length bytes that
    [parseLength] decodes to the length of the value, and the value,
    followed by anything, the count is the length of these three parts,
    and the children are none for an empty value or a primitive tag and
    what [Parse] returns on the value otherwise. *)
Theorem parseFirstBerTLV_succeeds_exactly (b : bytes) (t : BerTLV) (n : Z) :
  parseFirstBerTLV b = Ok (t, n) <->
  exists L rest,
    b = ((Tag t ++ L) ++ Value t) ++ rest /\
    (forall r, parseTag (Tag t ++ r) = Ok (Tag t)) /\
    parseLength (L ++ Value t ++ rest) = Ok (len (Value t), len L) /\
    n = len (Tag t) + len L + len (Value t) /\
    (Value t = [] \/ IsConstructed (Tag t) = false -> children t = []) /\
    (Value t <> [] -> IsConstructed (Tag t) = true ->
     Parse (Value t) = Ok (children t)).
Proof.
  split; [apply parseFirstBerTLV_ok_inv|].
  intros (L & rest & -> & Htag & Hlen & -> & Hnil & Hparse).
  destruct t as [tag value cs]. cbn [Tag Value children] in *.
  apply parseFirstBerTLV_ok_intro; assumption.
Qed.

Lemma parseFirstBerTLV_succeeds_exactly_witness :
  parseFirstBerTLV [x0a; x81; x01; xff; x00]
  = Ok (mkBerTLV [x0a] [xff] [], 4).
Proof.
  apply (proj2 (parseFirstBerTLV_succeeds_exactly
                  [x0a; x81; x01; xff; x00] (mkBerTLV [x0a] [xff] []) 4)).
  exists [x81; x01], [x00]. cbn [Tag Value children].
  split; [reflexivity|]. split; [intros r; reflexivity|].
  split; [reflexivity|]. split; [reflexivity|].
  split; [reflexivity|]. intros _ H. discriminate.
Defined.

(** ** Decoder: sequences *)

Lemma slice_from_slice_from {A : Type} (s : list A) (i n : Z) :
  0 <= i -> 0 <= n -> slice_from (slice_from s i) n = slice_from s (i + n).
Proof.
  unfold slice_from. intros Hi Hn. rewrite skipn_skipn. f_equal. lia.
Qed.

Lemma slice_from_beyond {A : Type} (s : list A) (i : Z) :
  len s <= i -> slice_from s i = [].
Proof.
  unfold slice_from, len. intros H. apply skipn_all2. lia.
Qed.

Lemma len_slice_from {A : Type} (s : list A) (i : Z) :
  0 <= i <= len s -> len (slice_from s i) = len s - i.
Proof.
  unfold slice_from, len. intros H. rewrite length_skipn. lia.
Qed.

Lemma slice_from_app_l {A : Type} (s x : list A) (n : Z) :
  0 <= n <= len s -> slice_from (s ++ x) n = slice_from s n ++ x.
Proof.
  unfold slice_from, len. intros H. rewrite skipn_app.
  replace (Z.to_nat n - length s)%nat with 0%nat by lia. reflexivity.
Qed.

Lemma parseFirstBerTLV_nil : parseFirstBerTLV [] = Panic.
Proof. reflexivity. Qed.

Lemma parseLoop_ok_decodes wrap :
  forall (fuel : nat) (b : bytes) (index : Z) (acc r : list BerTLV),
    0 <= index ->
    parseLoop parseFirstBerTLV wrap fuel b index acc = Ok r ->
    exists ts, r = acc ++ ts /\ decodes (slice_from b index) ts.
Proof.
  induction fuel as [|fuel IH]; intros b index acc r Hi; cbn [parseLoop];
    destruct (Z.ltb_spec index (len b)) as [Hlt|Hge]; try discriminate.
  - intros E. injection E as <-. exists []. rewrite app_nil_r.
    rewrite slice_from_beyond by assumption. split; [reflexivity|constructor].
  - destruct (parseFirstBerTLV (slice_from b index)) as [[t n]| | |] eqn:Es;
      try discriminate.
    intros E. pose proof (parseFirstBerTLV_consumed _ _ _ Es) as Hn.
    apply IH in E; [|lia]. destruct E as (ts & -> & Hts).
    exists (t :: ts). rewrite <- app_assoc. split; [reflexivity|].
    econstructor; [exact Es|].
    rewrite slice_from_slice_from by lia. exact Hts.
  - intros E. injection E as <-. exists []. rewrite app_nil_r.
    rewrite slice_from_beyond by assumption. split; [reflexivity|constructor].
Qed.

Lemma decodes_parseLoop wrap (s : bytes) (ts : list BerTLV) :
  decodes s ts ->
  forall (b : bytes) (index : Z) (acc : list BerTLV) (fuel : nat),
    0 <= index <= len b ->
    s = slice_from b index ->
    len b - index <= Z.of_nat fuel ->
    parseLoop parseFirstBerTLV wrap fuel b index acc = Ok (acc ++ ts).
Proof.
  induction 1 as [|s t n ts Hs _ IH]; intros b index acc fuel Hi Es Hf.
  - apply (f_equal len) in Es. rewrite len_slice_from in Es by assumption.
    change (len (@nil byte)) with 0 in Es.
    rewrite parseLoop_done by lia. rewrite app_nil_r. reflexivity.
  - pose proof (parseFirstBerTLV_consumed _ _ _ Hs) as Hn.
    assert (Hls : len s = len b - index)
      by (rewrite Es; apply len_slice_from; assumption).
    destruct fuel as [|fuel]; [lia|].
    rewrite (parseLoop_next _ _ fuel b index acc t n);
      [|lia|rewrite <- Es; exact Hs].
    rewrite (IH b (index + n) (acc ++ [t]) fuel); try lia.
    + rewrite <- app_assoc. reflexivity.
    + rewrite Es. apply slice_from_slice_from; lia.
Qed.

Lemma Parse_decodes (b : bytes) (T : BerTLVs) :
  Parse b = Ok T <-> b <> [] /\ decodes b T.
Proof.
  unfold Parse. destruct (Z.eqb_spec (len b) 0) as [Hz|Hz].
  { apply len_zero_nil in Hz. split; [discriminate|]. intros (H & _).
    contradiction. }
  assert (Hne : b <> []) by (intros ->; apply Hz; reflexivity).
  split.
  - destruct (parseLoop _ _ (length b) b 0 []) as [r| | |] eqn:E;
      try discriminate.
    intros E'. injection E' as ->. split; [assumption|].
    apply parseLoop_ok_decodes in E; [|lia].
    destruct E as (ts & -> & Hts). exact Hts.
  - intros (_ & Hd).
    rewrite (decodes_parseLoop _ b T Hd b 0 [] (length b));
      try reflexivity; unfold len; lia.
Qed.

(** Bytes after a TLV do not change how it decodes. *)
Lemma parseFirstBerTLV_app (s x : bytes) (t : BerTLV) (n : Z) :
  parseFirstBerTLV s = Ok (t, n) -> parseFirstBerTLV (s ++ x) = Ok (t, n).
Proof.
  intros H. apply parseFirstBerTLV_ok_inv in H.
  destruct H as (L & rest & -> & Htag & Hlen & -> & Hnil & Hparse).
  destruct t as [tag value cs]. cbn [Tag Value children] in *.
  rewrite <- (app_assoc _ rest x).
  apply parseFirstBerTLV_ok_intro; try assumption.
  exact (parseLength_prefix L (value ++ rest) (value ++ rest ++ x)
           (len value) Hlen).
Qed.

Lemma decodes_app (a b : bytes) (A B : list BerTLV) :
  decodes a A -> decodes b B -> decodes (a ++ b) (A ++ B).
Proof.
  induction 1 as [|s t n ts Hs _ IH]; intros HB; [exact HB|].
  pose proof (parseFirstBerTLV_consumed _ _ _ Hs) as Hn.
  cbn [app]. econstructor; [apply parseFirstBerTLV_app; exact Hs|].
  rewrite slice_from_app_l by lia. apply IH. exact HB.
Qed.

(** [Parse] of two buffers put one after the other, when it succeeds on
    each, returns the nodes of the first followed by those of the second. *)
Theorem Parse_app (a b : bytes) (A B : BerTLVs) :
  Parse a = Ok A -> Parse b = Ok B -> Parse (a ++ b) = Ok (A ++ B).
Proof.
  intros HA HB. apply Parse_decodes in HA. apply Parse_decodes in HB.
  destruct HA as (Ha & HA), HB as (_ & HB). apply Parse_decodes. split.
  - intros E. apply app_eq_nil in E. destruct E. contradiction.
  - apply decodes_app; assumption.
Qed.

Lemma Parse_app_witness :
  Parse ([x0a; x01; xff] ++ [x71; x00])
  = Ok ([mkBerTLV [x0a] [xff] []] ++ [mkBerTLV [x71] [] []]).
Proof.
  apply Parse_app; reflexivity.
Defined.

(** Every node of a decoded sequence came from a decode of a slice no
    longer than the whole. *)
Lemma decodes_Forall (s : bytes) (ts : list BerTLV) :
  decodes s ts ->
  Forall (fun t => exists s' n, (length s' <= length s)%nat /\
                     parseFirstBerTLV s' = Ok (t, n)) ts.
Proof.
  induction 1 as [|s t n ts Hs _ IH]; constructor.
  - exists s, n. split; [lia|assumption].
  - eapply Forall_impl; [|exact IH]. cbn.
    intros a (s' & n' & Hle & E). exists s', n'. split; [|assumption].
    unfold slice_from in Hle. rewrite length_skipn in Hle. lia.
Qed.

Lemma wellFormed_unfold (tag : BerTag) (value : bytes) (cs : list BerTLV) :
  wellFormed (mkBerTLV tag value cs) <->
  CheckEncoding tag = CheckNil /\
  len value <= 65535 /\
  (IsConstructed tag = false -> cs = []) /\
  (value = [] -> cs = []) /\
  (IsConstructed tag = true -> value <> [] -> Parse value = Ok cs) /\
  Forall wellFormed cs.
Proof.
  cbn [wellFormed].
  assert (G : (fix all (l : list BerTLV) : Prop :=
                 match l with
                 | [] => True
                 | c :: l' => wellFormed c /\ all l'
                 end) cs <-> Forall wellFormed cs).
  { induction cs as [|c cs IH].
    - split; [constructor|exact (fun _ => I)].
    - split.
      + intros (Hc & Hcs). constructor; [exact Hc|apply IH; exact Hcs].
      + intros H. inversion H as [|? ? Hc Hcs]; subst.
        split; [exact Hc|apply IH; exact Hcs]. }
  rewrite G. reflexivity.
Qed.

Lemma parseFirstBerTLV_wellFormed :
  forall (N : nat) (b : bytes) (t : BerTLV) (n : Z),
    (length b <= N)%nat -> parseFirstBerTLV b = Ok (t, n) -> wellFormed t.
Proof.
  induction N as [|N IH]; intros b t n HN H.
  { destruct b; [discriminate|cbn in HN; lia]. }
  pose proof (parseFirstBerTLV_ok_inv _ _ _ H)
    as (L & rest & Eb & Htag & Hlen & _ & Hnil & Hparse).
  destruct t as [tag value cs]. cbn [Tag Value children] in *.
  destruct (parseLength_ok_bounds _ _ _ Hlen) as (HL & _ & Hv).
  apply wellFormed_unfold. repeat split; try lia; auto.
  - apply CheckEncoding_parseTag. rewrite <- (app_nil_r tag) at 1.
    apply Htag.
  - destruct value as [|v0 value]; [rewrite Hnil by auto; constructor|].
    destruct (IsConstructed tag) eqn:Ec;
      [|rewrite Hnil by auto; constructor].
    specialize (Hparse ltac:(discriminate) eq_refl).
    apply Parse_decodes in Hparse. destruct Hparse as (_ & Hd).
    apply decodes_Forall in Hd. eapply Forall_impl; [|exact Hd]. cbn.
    intros c (s' & n' & Hle & Es). apply (IH s' c n'); [|exact Es].
    pose proof (len_nonneg tag).
    apply (f_equal (@length byte)) in Eb. rewrite !length_app in Eb.
    cbn [length] in *. unfold len in HL. lia.
Qed.

Lemma decodes_wellFormed (s : bytes) (ts : list BerTLV) :
  decodes s ts -> Forall wellFormed ts.
Proof.
  intros Hd. apply decodes_Forall in Hd.
  eapply Forall_impl; [|exact Hd]. cbn.
  intros t (s' & n & _ & Es).
  apply (parseFirstBerTLV_wellFormed (length s') s' t n); [lia|exact Es].
Qed.

(** Every node [Parse] returns, and every node below it, has a tag that
    passes [CheckEncoding] and a value of at most 65535 bytes; it has no
    children when its tag is primitive or its value empty, and otherwise
    its children are the nodes [Parse] returns on its value. *)
Theorem Parse_wellFormed (b : bytes) (T : BerTLVs) :
  Parse b = Ok T -> Forall wellFormed T.
Proof.
  intros H. apply Parse_decodes in H. destruct H as (_ & Hd).
  apply decodes_wellFormed in Hd. exact Hd.
Qed.

Lemma Parse_wellFormed_witness :
  Forall wellFormed
    [mkBerTLV [x71] [xb0; x03; x0f; x01; xaa]
       [mkBerTLV [xb0] [x0f; x01; xaa] [mkBerTLV [x0f] [xaa] []]]].
Proof.
  apply (Parse_wellFormed [x71; x05; xb0; x03; x0f; x01; xaa]).
  reflexivity.
Defined.

Lemma len_BerTLV_Bytes_le_consumed (s : bytes) (t : BerTLV) (n : Z) :
  parseFirstBerTLV s = Ok (t, n) -> len (BerTLV_Bytes t) <= n.
Proof.
  intros H. apply parseFirstBerTLV_ok_inv in H.
  destruct H as (L & rest & _ & Htag & Hlen & -> & _).
  destruct t as [tag value cs]. cbn [Tag Value] in *.
  destruct (parseLength_ok_bounds _ _ _ Hlen) as (_ & _ & Hv).
  destruct (parseTag_ok _ _ (Htag [])) as (_ & Htl & _).
  rewrite BerTLV_Bytes_regular by lia. rewrite !len_app.
  pose proof (buildLen_shortest _ _ _ Hlen). lia.
Qed.

Lemma decodes_len_encoded (s : bytes) (ts : list BerTLV) :
  decodes s ts -> len (concat (map BerTLV_Bytes ts)) <= len s.
Proof.
  induction 1 as [|s t n ts Hs _ IH]; [cbn; lia|].
  cbn [map concat]. rewrite len_app.
  pose proof (len_BerTLV_Bytes_le_consumed _ _ _ Hs).
  pose proof (parseFirstBerTLV_consumed _ _ _ Hs).
  rewrite len_slice_from in IH by lia. lia.
Qed.

(** Encoding what [Parse] returned never takes more bytes than the input
    had: [Bytes] writes every length in its shortest form. *)
Theorem Parse_reencoding_not_longer (b : bytes) (T : BerTLVs) :
  Parse b = Ok T -> len (BerTLVs_Bytes T) <= len b.
Proof.
  intros H. apply Parse_decodes in H. destruct H as (_ & Hd).
  rewrite BerTLVs_Bytes_concat. apply decodes_len_encoded. exact Hd.
Qed.

Lemma Parse_reencoding_not_longer_witness :
  len (BerTLVs_Bytes [mkBerTLV [x0a] [xff] []])
  <= len [x0a; x82; x00; x01; xff].
Proof.
  apply Parse_reencoding_not_longer. reflexivity.
Defined.

(** ** Decoder: truncated input *)

(** When the declared length reaches past the end of the input,
    [parseFirstBerTLV] fails with the out-of-bounds error that carries the
    tag, the indicated end index and the actual end index, and [Parse]
    fails with that error wrapped with index 0. *)
Theorem Parse_value_out_of_bounds (b : bytes) (tag : BerTag) (v lLen : Z) :
  parseTag b = Ok tag ->
  parseLength (slice_from b (len tag)) = Ok (v, lLen) ->
  len b < len tag + lLen + v ->
  parseFirstBerTLV b
  = Err (zeroBerTLV, 0)
      (ErrOutOfBounds tag (len tag + lLen + v - 1) (len b - 1)) /\
  Parse b
  = Err []
      (WrapInvalidTLVAtIndex 0
         (ErrOutOfBounds tag (len tag + lLen + v - 1) (len b - 1))).
Proof.
  intros Etag Elen Hb.
  assert (Hfirst : parseFirstBerTLV b
                   = Err (zeroBerTLV, 0)
                       (ErrOutOfBounds tag (len tag + lLen + v - 1)
                          (len b - 1))).
  { rewrite (parseFirstBerTLV_unfold b (length b)) by lia.
    unfold parseFirstBerTLV_body. rewrite Etag, Elen. cbv zeta.
    destruct (Z.gtb_spec (len tag + lLen + v - 1) (len b - 1)); [|lia].
    reflexivity. }
  split; [exact Hfirst|].
  destruct (parseTag_ok _ _ Etag) as ((rest & Eb) & Htl & _).
  unfold Parse.
  destruct (Z.eqb_spec (len b) 0) as [Hz|Hz];
    [rewrite Eb, len_app in Hz; pose proof (len_nonneg rest); lia|].
  destruct (length b) as [|fuel] eqn:El; [unfold len in Hz; lia|].
  cbn [parseLoop]. destruct (Z.ltb_spec 0 (len b)) as [_|Hle];
    [|pose proof (len_nonneg b); lia].
  change (slice_from b 0) with b. rewrite Hfirst. reflexivity.
Qed.

Lemma Parse_value_out_of_bounds_witness :
  Parse [x0a; x03; xff]
  = Err [] (WrapInvalidTLVAtIndex 0 (ErrOutOfBounds [x0a] 4 2)).
Proof.
  apply (Parse_value_out_of_bounds [x0a; x03; xff] [x0a] 3 1);
    reflexivity.
Defined.

(** ** Direct construction *)

Lemma NewBerTLV_returns (tag : BerTag) (value : bytes) :
  NewBerTLV tag value <> Panic /\ NewBerTLV tag value <> OutOfFuel.
Proof.
  unfold NewBerTLV. destruct (negb (IsConstructed tag));
    [split; discriminate|].
  destruct (parseLoop_returns parseFirstBerTLV
              (fun _ e => WrapInvalidContent tag e) value) with
    (fuel := length value) (index := 0) (acc := @nil BerTLV) as (Hp & Ho).
  - intros s t n E. apply parseFirstBerTLV_consumed in E. lia.
  - intros s Hs _. apply parseFirstBerTLV_returns. assumption.
  - lia.
  - unfold len. lia.
  - destruct (parseLoop _ _ (length value) value 0 []);
      try (split; discriminate); congruence.
Qed.

(** [Parse] and [NewBerTLV] return on every input: neither panics, and
    the recursion and the loops of the decoder always come to an end.
    [Parse] returns nodes, or the empty [BerTLVs] with an error;
    [NewBerTLV] returns a node with the given tag and value, or nil with
    an error. *)
Theorem decoder_always_returns (b : bytes) (tag : BerTag) :
  ((exists T, Parse b = Ok T) \/ (exists e, Parse b = Err [] e)) /\
  ((exists cs, NewBerTLV tag b = Ok (Some (mkBerTLV tag b cs))) \/
   (exists e, NewBerTLV tag b = Err None e)).
Proof.
  split.
  - destruct (Parse_returns b) as (Hp & Ho). unfold Parse in *.
    destruct (len b =? 0); [right; eauto|].
    destruct (parseLoop _ _ (length b) b 0 []); try congruence;
      [left|right]; eauto.
  - destruct (NewBerTLV_returns tag b) as (Hp & Ho). unfold NewBerTLV in *.
    destruct (negb (IsConstructed tag)); [left; eauto|].
    destruct (parseLoop _ _ (length b) b 0 []); try congruence;
      [left|right]; eauto.
Qed.

Lemma Parse_err_nil (b : bytes) (v : BerTLVs) (e : error) :
  Parse b = Err v e -> v = [].
Proof.
  unfold Parse. destruct (len b =? 0); [congruence|].
  destruct (parseLoop _ _ (length b) b 0 []); congruence.
Qed.


Lemma NewBerTLV_ok_iff (tag : BerTag) (value : bytes) (cs : list BerTLV) :
  NewBerTLV tag value = Ok (Some (mkBerTLV tag value cs)) <->
  ((value = [] \/ IsConstructed tag = false) /\ cs = []) \/
  (value <> [] /\ IsConstructed tag = true /\ Parse value = Ok cs).
Proof.
  unfold NewBerTLV. destruct (IsConstructed tag) eqn:Ec; cbn [negb].
  - destruct value as [|v0 value].
    + cbn. split.
      * intros E. injection E as <-. left. auto.
      * intros [(_ & ->)|(H & _)]; [reflexivity|contradiction].
    + assert (Hne : v0 :: value <> []) by discriminate.
      pose proof (parseLoop_ok_Parse (fun _ e => WrapInvalidContent tag e)
                    (length (v0 :: value)) (v0 :: value) cs Hne
                    (Nat.le_refl _)) as P.
      split.
      * intros E. right. repeat split; try assumption. apply P.
        destruct (parseLoop _ _ (length (v0 :: value)) (v0 :: value) 0 []);
          try discriminate.
        injection E as ->. reflexivity.
      * intros [([H|H] & _)|(_ & _ & H)]; try discriminate.
        apply P in H. rewrite H. reflexivity.
  - split.
    + intros E. injection E as <-. left. auto.
    + intros [(_ & ->)|(_ & H & _)]; [reflexivity|discriminate].
Qed.

(** [NewBerTLV] with a primitive tag or an empty value returns the node
    without children.  With a constructed tag and a non-empty value it
    succeeds exactly when [Parse] succeeds on the value, the children being
    the nodes [Parse] returns, and fails exactly when [Parse] fails. *)
Theorem NewBerTLV_children_from_Parse (tag : BerTag) (value : bytes) :
  (IsConstructed tag = false \/ value = [] ->
   NewBerTLV tag value = Ok (Some (mkBerTLV tag value []))) /\
  (IsConstructed tag = true -> value <> [] ->
   (forall cs, NewBerTLV tag value = Ok (Some (mkBerTLV tag value cs)) <->
               Parse value = Ok cs) /\
   ((exists e, NewBerTLV tag value = Err None e) <->
    (exists e, Parse value = Err [] e))).
Proof.
  split.
  { intros H. apply NewBerTLV_ok_iff. left. split; [tauto|reflexivity]. }
  intros Hc Hne.
  assert (Hiff : forall cs,
             NewBerTLV tag value = Ok (Some (mkBerTLV tag value cs)) <->
             Parse value = Ok cs).
  { intros cs. rewrite NewBerTLV_ok_iff. split.
    - intros [([H|H] & _)|(_ & _ & H)]; [contradiction|congruence|exact H].
    - intros H. right. auto. }
  split; [exact Hiff|].
  destruct (Parse_returns value) as (Hp & Ho).
  destruct (NewBerTLV_returns tag value) as (Hp' & Ho').
  split.
  - intros (e & E).
    assert (HP : (exists T, Parse value = Ok T) \/
                 (exists e', Parse value = Err [] e')).
    { clear Hiff. destruct (Parse value) as [T|v e'| |] eqn:EP;
        try congruence; [left; eauto|].
      apply Parse_err_nil in EP as Hv. subst v. right. eauto. }
    destruct HP as [(T & HT)|HP]; [|exact HP].
    apply Hiff in HT. congruence.
  - intros (e & E).
    assert (HN : (exists cs, NewBerTLV tag value
                             = Ok (Some (mkBerTLV tag value cs))) \/
                 (exists e', NewBerTLV tag value = Err None e')).
    { clear Hiff Hp' Ho'. unfold NewBerTLV. rewrite Hc. cbn [negb].
      pose proof (parseLoop_returns parseFirstBerTLV
                    (fun _ e => WrapInvalidContent tag e) value) as R.
      destruct (R ltac:(intros s t n Es;
                        apply parseFirstBerTLV_consumed in Es; lia)
                  ltac:(intros s Hs _; apply parseFirstBerTLV_returns;
                        assumption)
                  (length value) 0 (@nil BerTLV) ltac:(lia)
                  ltac:(unfold len; lia)) as (Hlp & Hlo).
      destruct (parseLoop _ _ (length value) value 0 []);
        try congruence; [left|right]; eauto. }
    destruct HN as [(cs & Hcs)|HN]; [|exact HN].
    apply Hiff in Hcs. congruence.
Qed.





(** ** Navigation *)

Lemma bytes_Equal_eq (a b : bytes) : bytes_Equal a b = true <-> a = b.
Proof.
  revert b. induction a as [|x a IH]; intros [|y b]; cbn [bytes_Equal];
    try (split; [discriminate|discriminate]); [split; reflexivity|].
  rewrite andb_true_iff, IH. split.
  - intros (Hxy & ->). apply Byte.byte_dec_bl in Hxy. subst. reflexivity.
  - intros E. injection E as -> ->. split; [|reflexivity].
    apply Byte.byte_dec_lb. reflexivity.
Qed.

Lemma appendMatching_filter (l : list BerTLV) (tag : BerTag) :
  appendMatching l tag = filter (fun t => bytes_Equal (Tag t) tag) l.
Proof.
  unfold appendMatching.
  assert (G : forall out,
             fold_left
               (fun out tlv =>
                  if bytes_Equal (Tag tlv) tag then out ++ [tlv] else out)
               l out
             = out ++ filter (fun t => bytes_Equal (Tag t) tag) l).
  { induction l as [|t l IH]; intros out; cbn [fold_left filter].
    - symmetry. apply app_nil_r.
    - rewrite IH. destruct (bytes_Equal (Tag t) tag); [|reflexivity].
      rewrite <- app_assoc. reflexivity. }
  apply G.
Qed.

Lemma firstMatching_hd (l : list BerTLV) (tag : BerTag) :
  firstMatching l tag = hd_error (appendMatching l tag).
Proof.
  rewrite appendMatching_filter.
  induction l as [|t l IH]; cbn [firstMatching filter]; [reflexivity|].
  destruct (bytes_Equal (Tag t) tag); [reflexivity|exact IH].
Qed.

Lemma FindAllWithTag_filter (t : BerTLVs) (tag : BerTag) :
  FindAllWithTag t tag = filter (fun x => bytes_Equal (Tag x) tag) t.
Proof.
  unfold FindAllWithTag. rewrite appendMatching_filter.
  destruct (Z.eqb_spec (len (filter (fun x => bytes_Equal (Tag x) tag) t)) 0)
    as [Hz|]; [|reflexivity].
  symmetry. apply len_zero_nil. exact Hz.
Qed.

(** [FindAllWithTag] returns the nodes of the sequence whose tag equals
    the given tag, all of them and no other, in the order of the sequence;
    nothing is returned exactly when no node has that tag. *)
Theorem FindAllWithTag_selects (t : BerTLVs) (tag : BerTag) :
  FindAllWithTag t tag = filter (fun x => bytes_Equal (Tag x) tag) t /\
  (forall x, In x (FindAllWithTag t tag) <-> In x t /\ Tag x = tag) /\
  (FindAllWithTag t tag = [] <-> forall x, In x t -> Tag x <> tag).
Proof.
  rewrite FindAllWithTag_filter. split; [reflexivity|]. split.
  - intros x. rewrite filter_In, bytes_Equal_eq. reflexivity.
  - split.
    + intros E x Hx Ht.
      assert (Hin : In x (filter (fun x => bytes_Equal (Tag x) tag) t))
        by (apply filter_In; split; [exact Hx|apply bytes_Equal_eq; exact Ht]).
      rewrite E in Hin. exact Hin.
    + intros H. induction t as [|a t IH]; [reflexivity|].
      cbn [filter]. destruct (bytes_Equal (Tag a) tag) eqn:Ea.
      * apply bytes_Equal_eq in Ea. exfalso.
        apply (H a); [left; reflexivity|exact Ea].
      * apply IH. intros x Hx. apply H. right. exact Hx.
Qed.

(** [FindFirstWithTag] returns the first node [FindAllWithTag] returns,
    and nil exactly when no node of the sequence has the tag. *)
Theorem FindFirstWithTag_is_first_of_all (t : BerTLVs) (tag : BerTag) :
  FindFirstWithTag t tag = hd_error (FindAllWithTag t tag) /\
  (FindFirstWithTag t tag = None <-> forall x, In x t -> Tag x <> tag).
Proof.
  unfold FindFirstWithTag. rewrite FindAllWithTag_filter.
  induction t as [|a t (IH1 & IH2)]; cbn [firstMatching filter].
  - split; [reflexivity|]. split; [intros _ x []|reflexivity].
  - destruct (bytes_Equal (Tag a) tag) eqn:Ea.
    + split; [reflexivity|]. split; [discriminate|].
      intros H. exfalso. apply bytes_Equal_eq in Ea.
      apply (H a); [left; reflexivity|exact Ea].
    + split; [exact IH1|]. rewrite IH2. split.
      * intros H x [<-|Hx]; [|apply H; exact Hx].
        intros E. apply bytes_Equal_eq in E. congruence.
      * intros H x Hx. apply H. right. exact Hx.
Qed.

(** [FirstChild] returns the first node [Children] returns for the same
    filter, and nil when [Children] returns none: with and without a tag,
    on constructed and on primitive nodes. *)
Theorem FirstChild_is_first_of_Children (ber : BerTLV) (tag : BerTag) :
  FirstChild ber tag = hd_error (Children ber tag).
Proof.
  unfold FirstChild, Children.
  destruct (Z.eqb_spec (len tag) 0) as [Hz|Hz]; cbn [andb].
  - apply len_zero_nil in Hz. subst tag.
    destruct (children ber) as [|c cs] eqn:Ec.
    + cbn. destruct (negb (IsConstructed (Tag ber))); reflexivity.
    + reflexivity.
  - destruct (negb (IsConstructed (Tag ber))); [reflexivity|].
    apply firstMatching_hd.
Qed.

(** On a node [Parse] returned, [Children] without a filter is what
    [Parse] returns on the value when the tag is constructed and the value
    non-empty; otherwise [Children] and [FirstChild] return nothing,
    whatever the filter. *)
Theorem Children_of_parsed_node (b : bytes) (T : BerTLVs) :
  Parse b = Ok T ->
  Forall (fun t =>
            (IsConstructed (Tag t) = true -> Value t <> [] ->
             Parse (Value t) = Ok (Children t [])) /\
            (IsConstructed (Tag t) = false \/ Value t = [] ->
             forall tag, Children t tag = [] /\ FirstChild t tag = None)) T.
Proof.
  intros H. apply Parse_decodes in H. destruct H as (_ & Hd).
  apply decodes_Forall in Hd. eapply Forall_impl; [|exact Hd]. cbn.
  intros t (s' & n & _ & Es). apply parseFirstBerTLV_ok_inv in Es.
  destruct Es as (L & rest & _ & _ & _ & _ & Hnil & Hparse).
  split.
  - intros Hc Hne. unfold Children. cbn. apply Hparse; assumption.
  - intros Hp tag. assert (Hcs : children t = []) by (apply Hnil; tauto).
    assert (HC : Children t tag = []).
    { unfold Children. rewrite Hcs.
      destruct (len tag =? 0); [reflexivity|].
      destruct (negb (IsConstructed (Tag t))); reflexivity. }
    split; [exact HC|].
    unfold FirstChild. rewrite Hcs. change (len (@nil BerTLV)) with 0.
    cbn [Z.eqb negb]. rewrite andb_false_r.
    destruct (negb (IsConstructed (Tag t))); reflexivity.
Qed.

Lemma NewBerTLV_children_from_Parse_witness :
  NewBerTLV [x0a] [xff] = Ok (Some (mkBerTLV [x0a] [xff] [])) /\
  NewBerTLV [x71] [x0a; x01; xff]
  = Ok (Some (mkBerTLV [x71] [x0a; x01; xff] [mkBerTLV [x0a] [xff] []])).
Proof.
  split.
  - apply (proj1 (NewBerTLV_children_from_Parse [x0a] [xff])).
    left. reflexivity.
  - apply (proj2 (NewBerTLV_children_from_Parse [x71] [x0a; x01; xff]));
      [reflexivity|discriminate|reflexivity].
Defined.

Lemma FindAllWithTag_selects_witness :
  In (mkBerTLV [x0a] [xff] [])
    (FindAllWithTag [mkBerTLV [x71] [] []; mkBerTLV [x0a] [xff] []] [x0a]).
Proof.
  apply (proj1 (proj2 (FindAllWithTag_selects
                         [mkBerTLV [x71] [] []; mkBerTLV [x0a] [xff] []]
                         [x0a]))).
  split; [right; left; reflexivity|reflexivity].
Defined.

Lemma FindFirstWithTag_is_first_of_all_witness :
  FindFirstWithTag [mkBerTLV [x71] [] []] [x0a] = None.
Proof.
  apply (proj2 (FindFirstWithTag_is_first_of_all
                  [mkBerTLV [x71] [] []] [x0a])).
  intros x [<-|[]]. discriminate.
Defined.

Lemma Children_of_parsed_node_witness :
  Forall (fun t =>
            (IsConstructed (Tag t) = true -> Value t <> [] ->
             Parse (Value t) = Ok (Children t [])) /\
            (IsConstructed (Tag t) = false \/ Value t = [] ->
             forall tag, Children t tag = [] /\ FirstChild t tag = None))
    [mkBerTLV [x71] [x0a; x01; xff] [mkBerTLV [x0a] [xff] []]].
Proof.
  apply (Children_of_parsed_node [x71; x03; x0a; x01; xff]). reflexivity.
Defined.

(** ** Encoder *)

Lemma BytesLength_matches_on_regular_tags_witness :
  BytesLength (mkBerTLV [x1f; x0a] [xaa; xbb] [])
  = len (BerTLV_Bytes (mkBerTLV [x1f; x0a] [xaa; xbb] [])).
Proof.
  apply BytesLength_matches_on_regular_tags. unfold len. cbn. lia.
Defined.

Lemma slice_to_idem {A : Type} (s : list A) (j : Z) :
  slice_to (slice_to s j) j = slice_to s j.
Proof.
  unfold slice_to. rewrite firstn_firstn, Nat.min_id. reflexivity.
Qed.

Lemma emittedTag_slice_to (tag : BerTag) :
  tag <> [] -> emittedTag (slice_to tag 3) = emittedTag tag.
Proof.
  destruct tag as [|t0 r]; [contradiction|]. intros _.
  change (slice_to (t0 :: r) 3) with (t0 :: firstn 2 r) at 1.
  unfold emittedTag.
  change (t0 :: firstn 2 r) with (slice_to (t0 :: r) 3).
  apply slice_to_idem.
Qed.

(** [Bytes] emits between 2 and 65541 bytes, and cutting the value to
    65535 bytes, cutting a non-empty tag to 3 bytes or replacing an empty
    tag by one zero byte beforehand does not change what it emits. *)
Theorem Bytes_bounds_and_truncation (ber : BerTLV) (cs : list BerTLV) :
  2 <= len (BerTLV_Bytes ber) <= 65541 /\
  BerTLV_Bytes ber
  = BerTLV_Bytes (mkBerTLV (Tag ber) (slice_to (Value ber) 65535) cs) /\
  (Tag ber <> [] ->
   BerTLV_Bytes ber
   = BerTLV_Bytes (mkBerTLV (slice_to (Tag ber) 3) (Value ber) cs)) /\
  (Tag ber = [] ->
   BerTLV_Bytes ber = BerTLV_Bytes (mkBerTLV [x00] (Value ber) cs)).
Proof.
  split; [|split; [|split]].
  - split; [apply len_BerTLV_Bytes_pos|].
    rewrite BerTLV_Bytes_eq, !len_app, len_buildLen.
    assert (len (emittedTag (Tag ber)) <= 3).
    { unfold emittedTag. destruct (Tag ber) as [|t0 r];
        [unfold len; cbn; lia|].
      unfold slice_to, len. rewrite length_firstn. lia. }
    assert (len (slice_to (Value ber) 65535) <= 65535)
      by (unfold slice_to, len; rewrite length_firstn; lia).
    destruct (_ <=? 127); [lia|]. destruct (_ <=? 255); lia.
  - rewrite !BerTLV_Bytes_eq. cbn [Tag Value]. rewrite slice_to_idem.
    reflexivity.
  - intros Hne. rewrite !BerTLV_Bytes_eq. cbn [Tag Value].
    rewrite emittedTag_slice_to by assumption. reflexivity.
  - intros E. rewrite !BerTLV_Bytes_eq. cbn [Tag Value]. rewrite E.
    reflexivity.
Qed.

Lemma Bytes_bounds_and_truncation_witness :
  BerTLV_Bytes (mkBerTLV [x01; x02; x03; x04] [xaa] [])
  = BerTLV_Bytes (mkBerTLV (slice_to [x01; x02; x03; x04] 3) [xaa] []).
Proof.
  apply (Bytes_bounds_and_truncation
           (mkBerTLV [x01; x02; x03; x04] [xaa] []) []).
  discriminate.
Defined.

(** [BerTLVs.Bytes] of two sequences put together is the encoding of the
    first followed by the encoding of the second, and the encoding of a
    one-node sequence is [Bytes] of the node. *)
Theorem BerTLVs_Bytes_app (a b : BerTLVs) (t : BerTLV) :
  BerTLVs_Bytes (a ++ b) = BerTLVs_Bytes a ++ BerTLVs_Bytes b /\
  BerTLVs_Bytes [t] = BerTLV_Bytes t.
Proof.
  rewrite !BerTLVs_Bytes_concat, map_app, concat_app.
  split; [reflexivity|]. cbn. apply app_nil_r.
Qed.

(** ** Builder *)

(** [AddByte] adds exactly what [AddBytes] adds for the one-byte value,
    and [AddEmpty] adds the tag followed by one zero byte. *)
Theorem AddByte_is_AddBytes_of_one_byte (bu : Builder) (tag : BerTag)
    (val : byte) :
  AddByte bu tag val = AddBytes bu tag [val] /\
  Builder_Bytes (AddEmpty bu tag) = Builder_Bytes bu ++ tag ++ [x00].
Proof.
  split.
  - unfold AddByte, AddBytes, prependLengthBytes. cbn.
    rewrite <- !app_assoc. reflexivity.
  - unfold AddEmpty, AddBytes, Builder_Bytes. cbn.
    rewrite <- app_assoc. reflexivity.
Qed.

Lemma AddBytes_bytes_encoding (bu : Builder) (tag : BerTag) (v : bytes)
    (cs : list BerTLV) :
  1 <= len tag <= 3 ->
  bu_bytes (AddBytes bu tag v)
  = bu_bytes bu ++ BerTLV_Bytes (mkBerTLV tag v cs).
Proof.
  intros Ht. rewrite AddBytes_bytes, BerTLV_Bytes_eq. cbn [Tag Value].
  rewrite emittedTag_regular by assumption.
  assert (E : len (slice_to v 65535) = Z.min (len v) 65535).
  { unfold slice_to, len. rewrite length_firstn. lia. }
  rewrite E. reflexivity.
Qed.

(** For a tag of 1 to 3 bytes, [AddBytes] appends to the buffer the bytes
    [Bytes] emits for a node with that tag and value, for every value:
    empty, or longer than 65535 bytes and then cut the same way; [AddByte]
    and [AddEmpty] append the encoding of the node with the one-byte and
    with the empty value. *)
Theorem Builder_appends_encoding (bu : Builder) (tag : BerTag) (v : bytes)
    (val : byte) (cs : list BerTLV) :
  1 <= len tag <= 3 ->
  Builder_Bytes (AddBytes bu tag v)
  = Builder_Bytes bu ++ BerTLV_Bytes (mkBerTLV tag v cs) /\
  Builder_Bytes (AddByte bu tag val)
  = Builder_Bytes bu ++ BerTLV_Bytes (mkBerTLV tag [val] cs) /\
  Builder_Bytes (AddEmpty bu tag)
  = Builder_Bytes bu ++ BerTLV_Bytes (mkBerTLV tag [] cs).
Proof.
  intros Ht. unfold Builder_Bytes, AddEmpty.
  rewrite !(AddBytes_bytes_encoding bu tag _ cs Ht).
  split; [reflexivity|]. split; [|reflexivity].
  rewrite <- (AddBytes_bytes_encoding bu tag [val] cs Ht).
  unfold AddByte, AddBytes, prependLengthBytes. cbn.
  rewrite <- !app_assoc. reflexivity.
Qed.

Lemma Builder_appends_encoding_witness :
  Builder_Bytes (AddBytes (mkBuilder [x01; x00]) [x1f; x0a] [xff])
  = Builder_Bytes (mkBuilder [x01; x00])
      ++ BerTLV_Bytes (mkBerTLV [x1f; x0a] [xff] []).
Proof.
  apply (Builder_appends_encoding (mkBuilder [x01; x00]) [x1f; x0a] [xff]
           x00 []).
  unfold len. cbn. lia.
Defined.

Lemma decodes_encoded (ts : BerTLVs) :
  Forall reparses ts ->
  forall (s : bytes) (B : list BerTLV),
    decodes s B ->
    decodes (concat (map BerTLV_Bytes ts) ++ s) (ts ++ B).
Proof.
  induction 1 as [|t ts Ht _ IH]; intros s B HB; [exact HB|].
  cbn [map concat app]. rewrite <- app_assoc.
  econstructor; [apply Ht|].
  rewrite slice_from_app. apply IH. exact HB.
Qed.

Lemma decodes_nonempty (s : bytes) (t : BerTLV) (ts : list BerTLV) :
  decodes s (t :: ts) -> s <> [].
Proof.
  intros H. inversion H as [|? ? n ? Hs _]; subst. intros ->.
  rewrite parseFirstBerTLV_nil in Hs. discriminate.
Qed.




(** Adding, with [AddRaw], bytes that [Parse] decodes: built from the
    empty buffer the result is the nodes of those bytes, and built from a
    buffer that builds to some nodes the result is those nodes followed by
    the nodes of the added bytes. *)
Theorem AddRaw_appends_nodes (bu : Builder) (raw : bytes) (B : BerTLVs) :
  Parse raw = Ok B ->
  (Builder_Bytes bu = [] -> BuildBerTLVs (AddRaw bu raw) = Ok B) /\
  (forall A, BuildBerTLVs bu = Ok A ->
             BuildBerTLVs (AddRaw bu raw) = Ok (A ++ B)).
Proof.
  intros HB. unfold BuildBerTLVs, AddRaw, Builder_Bytes. cbn [bu_bytes].
  split.
  - intros ->. exact HB.
  - intros A HA. apply Parse_decodes in HA, HB.
    destruct HA as (Hne & HA), HB as (_ & HB). apply Parse_decodes. split.
    + intros E. apply app_eq_nil in E. destruct E. contradiction.
    + apply decodes_app; assumption.
Qed.

Lemma AddRaw_appends_nodes_witness :
  BuildBerTLVs (AddRaw (mkBuilder [x0a; x01; xff]) [x71; x00])
  = Ok ([mkBerTLV [x0a] [xff] []] ++ [mkBerTLV [x71] [] []]).
Proof.
  apply (AddRaw_appends_nodes (mkBuilder [x0a; x01; xff]) [x71; x00]);
    reflexivity.
Defined.

Lemma fold_AddBytes_bytes (ts : BerTLVs) :
  Forall (fun t => 1 <= len (Tag t) <= 3) ts ->
  forall bu,
    bu_bytes (fold_left (fun bu t => AddBytes bu (Tag t) (Value t)) ts bu)
    = bu_bytes bu ++ concat (map BerTLV_Bytes ts).
Proof.
  induction 1 as [|t ts Ht _ IH]; intros bu; cbn [fold_left map concat].
  - symmetry. apply app_nil_r.
  - rewrite IH.
    rewrite (AddBytes_bytes_encoding bu (Tag t) (Value t) (children t) Ht).
    destruct t as [tag value cs]. cbn [Tag Value children].
    rewrite <- app_assoc. reflexivity.
Qed.

(** Feeding the tag and the value of every node [Parse] returned to
    [AddBytes], in order and starting from the empty builder, and building,
    returns the same nodes. *)
Theorem Builder_rebuilds_parsed_tree (b : bytes) (T : BerTLVs) :
  Parse b = Ok T ->
  BuildBerTLVs
    (fold_left (fun bu t => AddBytes bu (Tag t) (Value t)) T emptyBuilder)
  = Ok T.
Proof.
  intros H. apply Parse_decodes in H. destruct H as (Hne & Hd).
  assert (Hall : Forall (fun t => reparses t /\ 1 <= len (Tag t) <= 3) T).
  { apply decodes_Forall in Hd. eapply Forall_impl; [|exact Hd]. cbn.
    intros t (s' & n & _ & Es).
    destruct (parseFirstBerTLV_reparses _ _ _ Es) as (Hr & Ht & _).
    split; assumption. }
  unfold BuildBerTLVs. rewrite fold_AddBytes_bytes
    by (eapply Forall_impl; [|exact Hall]; cbn; intros a Ha; apply Ha).
  cbn [emptyBuilder bu_bytes app].
  assert (Hre : Forall reparses T)
    by (eapply Forall_impl; [|exact Hall]; cbn; intros a Ha; apply Ha).
  pose proof (decodes_encoded T Hre [] [] decodes_nil) as D.
  rewrite !app_nil_r in D.
  destruct T as [|t T].
  - inversion Hd; subst. contradiction.
  - apply Parse_decodes. split; [eapply decodes_nonempty; exact D|exact D].
Qed.

Lemma Builder_rebuilds_parsed_tree_witness :
  BuildBerTLVs
    (fold_left (fun bu t => AddBytes bu (Tag t) (Value t))
       [mkBerTLV [x71] [x0a; x01; xff] [mkBerTLV [x0a] [xff] []];
        mkBerTLV [x0e] [] []]
       emptyBuilder)
  = Ok [mkBerTLV [x71] [x0a; x01; xff] [mkBerTLV [x0a] [xff] []];
        mkBerTLV [x0e] [] []].
Proof.
  apply (Builder_rebuilds_parsed_tree
           [x71; x81; x03; x0a; x01; xff; x0e; x00]).
  reflexivity.
Defined.

(** ** Shortest length forms *)





